(** * ADMM sparse recovery and the BIM attack (admm.py, utills.py)

    A shallow embedding of the solver [ADMM] of admm.py and of the attack
    [BIM] of utills.py, with the properties of the design document stated
    over it.

    Conventions of the embedding.
    - A torch tensor is a shape together with its entries.  Every tensor of
      the program is two-dimensional (sensing matrix, column vectors), so a
      tensor is a pair of dimensions and an entry function.
    - float32 entries and Python floats are idealised as exact rationals
      ([Q]); equality of values is [Qeq].  Where a property turns on
      rounding, the lines concerned are also given in float32 itself
      (module [Float32]).
    - A Python exception is a value [Err e]; a call that raises returns it.
    - The mutable [ADMM] object is threaded explicitly: a method that
      mutates [self] returns the new object. *)

From Stdlib Require Import QArith Qabs Qminmax ZArith List Lia Lqa Bool SpecFloat.
Import ListNotations.

Local Open Scope Q_scope.

(** ** Exceptions and the error monad *)

Inductive exn : Type :=
| RuntimeError        (* torch: shape mismatch, autograd failure *)
| LinAlgError         (* torch.linalg.inv on a singular matrix *)
| ZeroDivisionError   (* Python float division by zero *)
| UnboundLocalError.  (* a local variable read before assignment *)

Inductive result (A : Type) : Type :=
| Ok  (a : A)
| Err (e : exn).
Arguments Ok {A} a.
Arguments Err {A} e.

Definition bind {A B : Type} (c : result A) (k : A -> result B) : result B :=
  match c with
  | Ok a => k a
  | Err e => Err e
  end.

Notation "x <- c ;; k" := (bind c (fun x => k))
  (at level 61, c at next level, right associativity).
Notation "' pat <- c ;; k" := (bind c (fun x => match x with pat => k end))
  (at level 61, pat pattern, c at next level, right associativity).

Definition is_ok {A : Type} (c : result A) : bool :=
  match c with Ok _ => true | Err _ => false end.

(** ** Tensors *)

Record Tensor : Type := mkTensor {
  nrows : nat;
  ncols : nat;
  item  : nat -> nat -> Q
}.

(** Two tensors are equal when they have the same shape and equal entries. *)
Definition same_shape (a b : Tensor) : Prop :=
  nrows a = nrows b /\ ncols a = ncols b.

Definition tensor_eq (a b : Tensor) : Prop :=
  same_shape a b /\
  forall i j, (i < nrows a)%nat -> (j < ncols a)%nat -> item a i j == item b i j.

(** A tensor written as a list of rows. *)
Definition of_rows (l : list (list Q)) : Tensor :=
  mkTensor (length l) (length (hd [] l)) (fun i j => nth j (nth i l []) 0).

Definition to_rows (t : Tensor) : list (list Q) :=
  map (fun i => map (fun j => Qred (item t i j)) (seq 0 (ncols t))) (seq 0 (nrows t)).

Fixpoint sum_upto (n : nat) (f : nat -> Q) : Q :=
  match n with
  | O => 0
  | S n' => sum_upto n' f + f n'
  end.

(** torch.zeros((r, c)) and torch.eye(n) *)
Definition zeros (r c : nat) : Tensor := mkTensor r c (fun _ _ => 0).
Definition eye (n : nat) : Tensor :=
  mkTensor n n (fun i j => if Nat.eqb i j then 1 else 0).

(** t.T *)
Definition transpose (t : Tensor) : Tensor :=
  mkTensor (ncols t) (nrows t) (fun i j => item t j i).

(** torch.matmul on two-dimensional tensors *)
Definition matmul (a b : Tensor) : result Tensor :=
  if Nat.eqb (ncols a) (nrows b)
  then Ok (mkTensor (nrows a) (ncols b)
             (fun i j => sum_upto (ncols a) (fun k => item a i k * item b k j)))
  else Err RuntimeError.

(** Broadcasting of one dimension: equal sizes, or one of them is 1. *)
Definition bdim (a b : nat) : result nat :=
  if Nat.eqb a b then Ok a
  else if Nat.eqb a 1 then Ok b
  else if Nat.eqb b 1 then Ok a
  else Err RuntimeError.

Definition bidx (d i : nat) : nat := if Nat.eqb d 1 then O else i.

Definition broadcast2 (f : Q -> Q -> Q) (a b : Tensor) : result Tensor :=
  r <- bdim (nrows a) (nrows b) ;;
  c <- bdim (ncols a) (ncols b) ;;
  Ok (mkTensor r c
        (fun i j => f (item a (bidx (nrows a) i) (bidx (ncols a) j))
                      (item b (bidx (nrows b) i) (bidx (ncols b) j)))).

Definition pointwise (f : Q -> Q) (a : Tensor) : Tensor :=
  mkTensor (nrows a) (ncols a) (fun i j => f (item a i j)).

Definition Qsign (q : Q) : Q := inject_Z (Z.sgn (Qnum q)).

(** torch.clamp(x, min, max): min(max(x, min), max) *)
Definition Qclamp (lo hi q : Q) : Q := Qmin (Qmax q lo) hi.

Definition tadd : Tensor -> Tensor -> result Tensor := broadcast2 Qplus.
Definition tsub : Tensor -> Tensor -> result Tensor := broadcast2 Qminus.
Definition torch_mul : Tensor -> Tensor -> result Tensor := broadcast2 Qmult.
Definition torch_max : Tensor -> Tensor -> result Tensor := broadcast2 Qmax.
Definition torch_abs : Tensor -> Tensor := pointwise Qabs.
Definition torch_sign : Tensor -> Tensor := pointwise Qsign.
Definition torch_clamp (t : Tensor) (lo hi : Q) : Tensor := pointwise (Qclamp lo hi) t.
(** scalar * tensor, tensor - scalar, tensor ** 2 *)
Definition scale (c : Q) : Tensor -> Tensor := pointwise (Qmult c).
Definition sub_scalar (t : Tensor) (c : Q) : Tensor := pointwise (fun q => q - c) t.
Definition square : Tensor -> Tensor := pointwise (fun q => q * q).

(** torch.sum(t) and t.norm(p=1) *)
Definition torch_sum (t : Tensor) : Q :=
  sum_upto (nrows t) (fun i => sum_upto (ncols t) (fun j => item t i j)).
Definition norm1 (t : Tensor) : Q := torch_sum (torch_abs t).

(** Python float division *)
Definition truediv (a b : Q) : result Q :=
  if Qeq_bool b 0 then Err ZeroDivisionError else Ok (a / b).

(** torch.linalg.inv, by cofactor expansion: raises on a non-square or a
    singular matrix. *)
Definition minor (a : nat -> nat -> Q) (i j : nat) : nat -> nat -> Q :=
  fun r c => a (if Nat.ltb r i then r else S r) (if Nat.ltb c j then c else S c).

Definition alt (k : nat) : Q := if Nat.even k then 1 else -(1).

Fixpoint det (n : nat) (a : nat -> nat -> Q) : Q :=
  match n with
  | O => 1
  | S n' => sum_upto n (fun j => alt j * a O j * det n' (minor a O j))
  end.

Definition linalg_inv (t : Tensor) : result Tensor :=
  if negb (Nat.eqb (nrows t) (ncols t)) then Err RuntimeError
  else
    let d := det (nrows t) (item t) in
    if Qeq_bool d 0 then Err LinAlgError
    else Ok (mkTensor (nrows t) (ncols t)
               (fun i j => alt (i + j) * det (pred (nrows t)) (minor (item t) j i) / d)).

(** nn.MSELoss()(input, target): mean of the squared differences *)
Definition MSELoss (input target : Tensor) : result Q :=
  d <- tsub input target ;;
  Ok (torch_sum (square d) / inject_Z (Z.of_nat (nrows d * ncols d))).

(** ** float32

    The tensors of the program hold float32 entries.  Where a property
    turns on rounding, the entry-wise lines concerned are also given in
    float32 itself: binary32 with round-to-nearest-even, as specified by
    [SpecFloat] for 24 bits of precision. *)

Module Float32.

Definition prec : Z := 24.
Definition emax : Z := 128.

Definition add : spec_float -> spec_float -> spec_float := SFadd prec emax.
Definition sub : spec_float -> spec_float -> spec_float := SFsub prec emax.

(** The float32 nearest to m * 2^e: how torch converts a Python float
    (a binary64 number m * 2^e) to the dtype of a float32 tensor. *)
Definition of_binary (m e : Z) : spec_float := binary_normalize prec emax m e false.

(** The number a finite float32 stands for. *)
Definition pow2 (e : Z) : Q :=
  match e with
  | Z0 => 1
  | Zpos p => inject_Z (2 ^ Zpos p)
  | Zneg p => 1 # (2 ^ p)
  end.

Definition to_Q (f : spec_float) : Q :=
  match f with
  | S754_finite s m e => inject_Z (cond_Zopp s (Zpos m)) * pow2 e
  | _ => 0
  end.

(** torch.clamp(x, min, max) on one entry, for bounds that are numbers:
    min(max(x, min), max), a NaN entry staying NaN. *)
Definition maximum (x lo : spec_float) : spec_float :=
  match x with
  | S754_nan => S754_nan
  | _ => if SFltb x lo then lo else x
  end.

Definition minimum (x hi : spec_float) : spec_float :=
  match x with
  | S754_nan => S754_nan
  | _ => if SFltb hi x then hi else x
  end.

Definition clamp (x lo hi : spec_float) : spec_float := minimum (maximum x lo) hi.

(** Lines 82-87 of utills.py on one component:
      adv_x = adv_x + delta
      eta = torch.clamp(adv_x - original_x, min=-eps, max=eps)
      adv_x = original_x + eta
    with [eps] already converted to float32.  Returns eta and the new
    adv_x. *)
Definition BIM_project (original_x adv_x delta eps : spec_float)
  : spec_float * spec_float :=
  let adv_x := add adv_x delta in
  let eta := clamp (sub adv_x original_x) (SFopp eps) eps in
  (eta, add original_x eta).

End Float32.

(** ** utills.py *)

Module utills.

(** The module-level constants [m] and [H] of utills.py.  [H] is drawn at
    random (and orthonormalised) when the module is loaded, so both are
    parameters of the development: every theorem holds for all of them. *)
Class Constants : Type := {
  m : nat;
  H : Tensor
}.

(** What [BIM] uses of its [model] argument (an nn.Module): the call
    [model(adv_x)], which returns the estimate and the list of recovery
    errors and mutates the model, and [model.zero_grad()]. *)
Class nnModule (M : Type) : Type := {
  call : M -> Tensor -> result (Tensor * list Q * M);
  zero_grad : M -> M
}.

(** torch.autograd.grad(cost, adv_x)[0], where [cost] is the MSE loss
    between [s_gt] and the estimate of [model(adv_x)].  The gradient is
    taken through the computation graph torch recorded during the call: it
    is a function of the model as it was before the call, of [adv_x] and of
    [s_gt].  torch raises when [cost] has no differentiable path to
    [adv_x]; a gradient has the shape of the tensor it is taken for. *)
Class Autograd (M : Type) : Type := {
  grad : M -> Tensor -> Tensor -> result Tensor;
  grad_shape : forall model adv_x s_gt g,
    grad model adv_x s_gt = Ok g -> same_shape g adv_x
}.

Section BIM.
Context {M : Type} {module : nnModule M} {autograd : Autograd M}.

(** The body of [for step in range(steps)], run [n] times.  [delta] is the
    local variable of that name: [None] while it is unbound. *)
Fixpoint BIM_loop (n : nat) (model : M) (original_x s_gt : Tensor)
         (eps alpha : Q) (adv_x : Tensor) (delta : option Tensor)
  : result (Tensor * option Tensor * M) :=
  match n with
  | O => Ok (adv_x, delta, model)
  | S n' =>
      '(s_hat, errs, model') <- call model adv_x ;;
      let model' := zero_grad model' in
      cost <- MSELoss s_gt s_hat ;;
      grad <- grad model adv_x s_gt ;;
      let delta := scale alpha (torch_sign grad) in
      adv_x <- tadd adv_x delta ;;
      d <- tsub adv_x original_x ;;
      let eta := torch_clamp d (- eps) eps in
      adv_x <- tadd original_x eta ;;
      BIM_loop n' model' original_x s_gt eps alpha adv_x (Some delta)
  end.

Definition BIM (model : M) (x s_gt : Tensor) (eps alpha : Q) (steps : Z)
  : result (Tensor * Tensor * M) :=
  let original_x := x in
  let adv_x := x in
  '(adv_x, delta, model) <-
     BIM_loop (Z.to_nat steps) model original_x s_gt eps alpha adv_x None ;;
  match delta with
  | Some delta => Ok (adv_x, delta, model)
  | None => Err UnboundLocalError
  end.

(** The defaults of the signature: eps=0.1, alpha=0.01, steps=5. *)
Definition BIM_default (model : M) (x s_gt : Tensor) :=
  BIM model x s_gt (1 # 10) (1 # 100) 5.
End BIM.

End utills.

(** ** admm.py *)

Module admm.
(** ADMM configuration (module level) *)
Definition step_size : Q := 5 # 100000.
Definition max_iter : Z := 10000.
Definition rho : Q := 1 # 100.
Definition eps_threshold : Q := 1 # 1000.
Definition lambda_ : Q := 25 # 2.
End admm.

Module ADMM.

(** An object of class ADMM.  [model_params] exists only once
    [set_model_visualization_params] has run. *)
Record t : Type := mk {
  mu : Q;
  max_iter : Z;
  eps : Q;
  rho : Q;
  lambda_ : Q;
  H : Tensor;
  left_term : Tensor;
  s : Tensor;
  u : Tensor;
  v : Tensor;
  model_params : option Tensor
}.

Definition set_s (self : t) (x : Tensor) : t :=
  mk (mu self) (max_iter self) (eps self) (rho self) (lambda_ self) (H self)
     (left_term self) x (u self) (v self) (model_params self).
Definition set_u (self : t) (x : Tensor) : t :=
  mk (mu self) (max_iter self) (eps self) (rho self) (lambda_ self) (H self)
     (left_term self) (s self) x (v self) (model_params self).
Definition set_v (self : t) (x : Tensor) : t :=
  mk (mu self) (max_iter self) (eps self) (rho self) (lambda_ self) (H self)
     (left_term self) (s self) (u self) x (model_params self).
Definition set_model_params (self : t) (x : Tensor) : t :=
  mk (mu self) (max_iter self) (eps self) (rho self) (lambda_ self) (H self)
     (left_term self) (s self) (u self) (v self) (Some x).

Definition __init__ (H : Tensor) (mu lambda_ : Q) (max_iter : Z) (eps rho : Q)
  : result t :=
  HtH <- matmul (transpose H) H ;;
  A <- tadd HtH (scale rho (eye (ncols H))) ;;
  left_term <- linalg_inv A ;;
  Ok (mk mu max_iter eps rho lambda_ H left_term
         (zeros (ncols H) 1) (zeros (ncols H) 1) (zeros (ncols H) 1) None).

Section Methods.
Context {consts : utills.Constants}.

Definition shrinkage (x : Tensor) (beta : Q) : result Tensor :=
  t <- torch_max (sub_scalar (torch_abs x) beta) (zeros utills.m 1) ;;
  torch_mul (torch_sign x) t.

(** Lines 100-110: the updates of one iteration. *)
Definition forward_update (self : t) (x : Tensor) : result t :=
  let s_prev := s self in
  let v_prev := v self in
  let u_prev := u self in
  Htx <- matmul (transpose utills.H) x ;;
  d <- tsub v_prev u_prev ;;
  right_term <- tadd Htx (scale (rho self) d) ;;
  s' <- matmul (left_term self) right_term ;;
  let self := set_s self s' in
  su <- tadd (s self) u_prev ;;
  beta <- truediv (rho self) (2 * lambda_ self) ;;
  v' <- shrinkage su beta ;;
  let self := set_v self v' in
  sv <- tsub (s self) (v self) ;;
  u' <- tadd u_prev (scale (mu self) sv) ;;
  Ok (set_u self u').

(** torch.sum(torch.abs(self.s - s_prev)) <= self.eps *)
Definition converged (self : t) (s_prev : Tensor) : result bool :=
  d <- tsub (s self) s_prev ;;
  Ok (Qle_bool (torch_sum (torch_abs d)) (eps self)).

(** torch.sum((torch.matmul(self.H, self.s) - x) ** 2).item() *)
Definition recovery_error (self : t) (x : Tensor) : result Q :=
  Hs <- matmul (H self) (s self) ;;
  r <- tsub Hs x ;;
  Ok (torch_sum (square r)).

(** [for k in range(self.max_iter)], with [k] iterations left. *)
Fixpoint forward_loop (k : nat) (self : t) (x : Tensor)
         (recovery_errors : list Q) : result (t * list Q) :=
  match k with
  | O => Ok (self, recovery_errors)
  | S k' =>
      let s_prev := s self in
      self <- forward_update self x ;;
      stop <- converged self s_prev ;;
      if stop : bool then Ok (self, recovery_errors)
      else
        e <- recovery_error self x ;;
        forward_loop k' self x (recovery_errors ++ [e])
  end.

Definition forward (self : t) (x : Tensor) : result (Tensor * list Q * t) :=
  '(self, recovery_errors) <- forward_loop (Z.to_nat (max_iter self)) self x [] ;;
  Ok (s self, recovery_errors, self).

Definition set_model_visualization_params (self : t) : t :=
  set_model_params self (s self).

Definition loss_func (self : t) (s x_sig : Tensor) : result (Q * t) :=
  Hs <- matmul (H self) s ;;
  r <- tsub Hs x_sig ;;
  Ok ((1 # 2) * torch_sum (square r) + rho self * norm1 s, self).

Definition copy (src_admm : t) : result t :=
  x <- __init__ (H src_admm) (mu src_admm) (lambda_ src_admm)
         (max_iter src_admm) (eps src_admm) (rho src_admm) ;;
  let x := set_s x (s src_admm) in
  Ok (set_model_visualization_params x).

Definition create_ADMM (H : Tensor) (step_size rho : Q) (max_iter : Z)
           (eps_threshold lambda_ : Q) : result t :=
  __init__ H step_size lambda_ max_iter eps_threshold rho.

(** [ADMM.create_ADMM()] with every default. *)
Definition create_ADMM_default : result t :=
  create_ADMM utills.H admm.step_size admm.rho admm.max_iter
              admm.eps_threshold admm.lambda_.

(** ADMM is an nn.Module: calling it runs [forward]; it has no
    parameter with a gradient, so [zero_grad] leaves it as it is. *)
#[global] Instance ADMM_nnModule : utills.nnModule t := {
  utills.call := forward;
  utills.zero_grad := fun self => self
}.
End Methods.

End ADMM.

(** ** Notions the properties are stated with *)

(** Broadcasting succeeds on these two shapes. *)
Definition compatible (a b : Tensor) : bool :=
  is_ok (bdim (nrows a) (nrows b)) && is_ok (bdim (ncols a) (ncols b)).

Definition has_shape (t : Tensor) (r c : nat) : bool :=
  Nat.eqb (nrows t) r && Nat.eqb (ncols t) c.

(** The L1 norm of s - s_prev between two objects, for columns. *)
Definition l1_change (before after : ADMM.t) : Q :=
  sum_upto (nrows (ADMM.s after))
    (fun i => Qabs (item (ADMM.s after) i O - item (ADMM.s before) i O)).

(** The reconstruction residual ||H s - x||_2^2 of an object, for a column
    observation. *)
Definition residual (self : ADMM.t) (x : Tensor) : Q :=
  sum_upto (nrows (ADMM.H self))
    (fun i => let r := sum_upto (ncols (ADMM.H self))
                         (fun k => item (ADMM.H self) i k * item (ADMM.s self) k O)
                       - item x i O in
              r * r).

Section Notions.
Context {consts : utills.Constants}.

(** The shapes the program runs with: [utills.H] is n x m, the solver was
    built for an n x m sensing matrix, the observation is n x 1; and the
    regularization weight is not zero (the threshold divides by it). *)
Definition well_shaped (self : ADMM.t) (x : Tensor) : bool :=
  Nat.eqb (ncols utills.H) utills.m
  && has_shape x (nrows utills.H) 1
  && has_shape (ADMM.H self) (nrows utills.H) utills.m
  && has_shape (ADMM.left_term self) utills.m utills.m
  && has_shape (ADMM.s self) utills.m 1
  && has_shape (ADMM.u self) utills.m 1
  && has_shape (ADMM.v self) utills.m 1
  && negb (Qeq_bool (2 * ADMM.lambda_ self) 0).

(** The object after [k] uninterrupted iterations of the update. *)
Fixpoint iterate (k : nat) (self : ADMM.t) (x : Tensor) : result ADMM.t :=
  match k with
  | O => Ok self
  | S k' => self <- ADMM.forward_update self x ;; iterate k' self x
  end.

(** Entry [j] of the trace is the reconstruction residual of iteration
    [j + 1], which ran to its end and did not meet the tolerance. *)
Definition trace_of (self : ADMM.t) (x : Tensor) (tr : list Q) : Prop :=
  forall j, (j < length tr)%nat ->
    exists before after,
      iterate j self x = Ok before /\
      ADMM.forward_update before x = Ok after /\
      ADMM.converged after (ADMM.s before) = Ok false /\
      ADMM.recovery_error after x = Ok (nth j tr 0).

(** Iteration [K] is the one that met the tolerance. *)
Definition stopped_at (self : ADMM.t) (x : Tensor) (K : nat) (final : ADMM.t)
  : Prop :=
  exists k before,
    K = S k /\ iterate k self x = Ok before /\
    ADMM.forward_update before x = Ok final /\
    ADMM.converged final (ADMM.s before) = Ok true.

(** Entry [j] of the trace is the residual ||H s - x||^2 after iteration
    [j + 1], and at that iteration the L1 norm of s - s_prev was above the
    tolerance. *)
Definition trace_is_residuals (self : ADMM.t) (x : Tensor) (tr : list Q) : Prop :=
  forall j, (j < length tr)%nat ->
    exists before after,
      iterate j self x = Ok before /\
      ADMM.forward_update before x = Ok after /\
      ~ l1_change before after <= ADMM.eps self /\
      nth j tr 0 == residual after x.

(** Iteration [K] is the one at which the L1 norm of s - s_prev was within
    the tolerance. *)
Definition converged_at (self : ADMM.t) (x : Tensor) (K : nat) (final : ADMM.t)
  : Prop :=
  exists k before,
    K = S k /\ iterate k self x = Ok before /\
    ADMM.forward_update before x = Ok final /\
    l1_change before final <= ADMM.eps self.
End Notions.

(** The shapes alone, whatever the regularization weight. *)
Definition shapes_fit {consts : utills.Constants} (self : ADMM.t) (x : Tensor)
  : bool :=
  Nat.eqb (ncols utills.H) utills.m
  && has_shape x (nrows utills.H) 1
  && has_shape (ADMM.H self) (nrows utills.H) utills.m
  && has_shape (ADMM.left_term self) utills.m utills.m
  && has_shape (ADMM.s self) utills.m 1
  && has_shape (ADMM.u self) utills.m 1
  && has_shape (ADMM.v self) utills.m 1.

(** The object with other visualization parameters. *)
Definition with_model_params (self : ADMM.t) (p : option Tensor) : ADMM.t :=
  ADMM.mk (ADMM.mu self) (ADMM.max_iter self) (ADMM.eps self) (ADMM.rho self)
          (ADMM.lambda_ self) (ADMM.H self) (ADMM.left_term self)
          (ADMM.s self) (ADMM.u self) (ADMM.v self) p.


(** What the constructor and [forward] never change. *)
Definition same_config (a b : ADMM.t) : Prop :=
  ADMM.mu a = ADMM.mu b /\ ADMM.max_iter a = ADMM.max_iter b /\
  ADMM.eps a = ADMM.eps b /\ ADMM.rho a = ADMM.rho b /\
  ADMM.lambda_ a = ADMM.lambda_ b /\ ADMM.H a = ADMM.H b /\
  ADMM.left_term a = ADMM.left_term b /\
  ADMM.model_params a = ADMM.model_params b.

(** H^T H + penalty I, entry by entry. *)
Definition gram (H : Tensor) (rho : Q) : Tensor :=
  mkTensor (ncols H) (ncols H)
    (fun i j => sum_upto (nrows H) (fun k => item H k i * item H k j)
                + rho * (if Nat.eqb i j then 1 else 0)).

(** [adv] is [x] plus a perturbation bounded by [eps] in every component. *)
Definition within (eps : Q) (x adv : Tensor) : Prop :=
  same_shape adv x /\
  forall i j, (i < nrows x)%nat -> (j < ncols x)%nat ->
              Qabs (item adv i j - item x i j) <= eps.

(** The update of one iteration as the design document words it:
    right_term = H^T x + penalty (v_prev - u_prev) with the solver's own H,
    s = PrecomputedInverse right_term,
    v = shrink(s + u_prev, penalty / (2 lambda)),
    u = u_prev + step_size (s - v),
    where shrink(x, beta) = sign(x) * max(|x| - beta, 0) element-wise. *)
Definition spec_shrink (x : Tensor) (beta : Q) : Tensor :=
  pointwise (fun q => Qsign q * Qmax (Qabs q - beta) 0) x.

Definition spec_update (self : ADMM.t) (x : Tensor) : result ADMM.t :=
  Htx <- matmul (transpose (ADMM.H self)) x ;;
  d <- tsub (ADMM.v self) (ADMM.u self) ;;
  right_term <- tadd Htx (scale (ADMM.rho self) d) ;;
  s <- matmul (ADMM.left_term self) right_term ;;
  su <- tadd s (ADMM.u self) ;;
  beta <- truediv (ADMM.rho self) (2 * ADMM.lambda_ self) ;;
  let v := spec_shrink su beta in
  sv <- tsub s v ;;
  u <- tadd (ADMM.u self) (scale (ADMM.mu self) sv) ;;
  Ok (ADMM.set_u (ADMM.set_v (ADMM.set_s self s) v) u).

(** 0.5 ||H s - x||_2^2 + penalty ||s||_1, entry by entry: the squared
    differences and the absolute values are summed over every entry. *)
Definition spec_loss (self : ADMM.t) (s x : Tensor) : Q :=
  (1 # 2) * sum_upto (nrows (ADMM.H self)) (fun i =>
              sum_upto (ncols s) (fun j =>
                let r := sum_upto (ncols (ADMM.H self))
                           (fun k => item (ADMM.H self) i k * item s k j)
                         - item x i j in
                r * r))
  + ADMM.rho self * sum_upto (nrows s) (fun k =>
                      sum_upto (ncols s) (fun j => Qabs (item s k j))).

(** ** The operations on an existing solver *)

(** Modelled from the spec: class ADMM also inherits from nn.Module (torch)
    and from LandscapeWrapper (visualize_model.py, which is not among the
    sources).  Of these bases the program calls zero_grad (utills.py, line
    67) and get_grid_vectors, linear_interpolation and random_plane
    (admm.py, lines 223-235).  nn.Module's methods act on registered
    parameters, buffers and submodules, while s, u and v are plain tensor
    attributes; and the design document has the visualization module read
    the solver "via loss and parameter snapshots" and "never mutate Solver
    internals".  An inherited call therefore leaves the object as it is. *)
Inductive inherited : Type :=
| zero_grad
| get_grid_vectors
| linear_interpolation
| random_plane.

(** What a caller can invoke on a solver it holds: the methods of the
    class body that take the solver, and the inherited ones. *)
Inductive operation : Type :=
| forward_op (x : Tensor)
| set_model_visualization_params_op
| loss_func_op (s x_sig : Tensor)
| copy_op
| inherited_op (m : inherited).

(** The solver a call leaves (for copy: the solver it returns). *)
Definition apply {consts : utills.Constants} (op : operation) (self : ADMM.t)
  : result ADMM.t :=
  match op with
  | forward_op x => r <- ADMM.forward self x ;; Ok (snd r)
  | set_model_visualization_params_op =>
      Ok (ADMM.set_model_visualization_params self)
  | loss_func_op s x_sig => r <- ADMM.loss_func self s x_sig ;; Ok (snd r)
  | copy_op => ADMM.copy self
  | inherited_op _ => Ok self
  end.



(** ** Small instances *)

Module Ex.
(** A one-dimensional world: utills.H = [[1]], m = 1. *)
Definition consts : utills.Constants :=
  {| utills.m := 1%nat; utills.H := of_rows [[1]] |}.

(** ADMM(H=[[1]], mu=1, lambda_=1/2, max_iter=2, eps=0, rho=1) *)
Definition solver : result ADMM.t :=
  ADMM.__init__ (of_rows [[1]]) 1 (1 # 2) 2 0 1.

(** The same, as the constructor leaves it. *)
Definition fresh : ADMM.t :=
  ADMM.mk 1 2 0 1 (1 # 2) (of_rows [[1]]) (of_rows [[1 # 2]])
          (zeros 1 1) (zeros 1 1) (zeros 1 1) None.

(** ADMM(H=[[2]], ...): a sensing matrix other than utills.H. *)
Definition other_H : result ADMM.t :=
  ADMM.__init__ (of_rows [[2]]) 1 (1 # 2) 1 0 1.

(** ADMM(H=[[1]], mu=0, lambda_=0, max_iter=0, eps=0, rho=0) *)
Definition non_positive : result ADMM.t :=
  ADMM.__init__ (of_rows [[1]]) 0 0 0 0 0.

Definition x : Tensor := of_rows [[2]].
Definition s_gt : Tensor := of_rows [[1]].

(** A gradient for the instances: all ones when the solver ran at least
    one iteration, none when it ran no iteration (the estimate then does
    not depend on the observation). *)
Definition ones_like (t : Tensor) : Tensor := pointwise (fun _ => 1) t.

Definition grad (model : ADMM.t) (adv_x s_gt : Tensor) : result Tensor :=
  if (0 <? ADMM.max_iter model)%Z then Ok (ones_like adv_x)
  else Err RuntimeError.

Lemma grad_shape model adv_x s_gt g :
  grad model adv_x s_gt = Ok g -> same_shape g adv_x.
Proof.
  unfold grad. destruct (0 <? ADMM.max_iter model)%Z; [|discriminate].
  intros E. injection E as <-. split; reflexivity.
Qed.

Definition autograd : utills.Autograd ADMM.t :=
  {| utills.grad := grad; utills.grad_shape := grad_shape |}.

(** A solver that runs no iteration: max_iter = 0. *)
Definition idle : ADMM.t :=
  ADMM.mk 1 0 0 1 (1 # 2) (of_rows [[1]]) (of_rows [[1 # 2]])
          (zeros 1 1) (zeros 1 1) (zeros 1 1) None.

(** A two-dimensional world: utills.H is the 2 x 2 identity, m = 2. *)
Definition consts2 : utills.Constants :=
  {| utills.m := 2%nat; utills.H := of_rows [[1; 0]; [0; 1]] |}.

(** As [fresh], with lambda_ = 0. *)
Definition zero_lambda : ADMM.t :=
  ADMM.mk 1 2 0 1 0 (of_rows [[1]]) (of_rows [[1 # 2]])
          (zeros 1 1) (zeros 1 1) (zeros 1 1) None.

(** As [fresh], with a budget of 3 iterations and the tolerance 3/4: the
    second iteration moves s by 1/2 and stops the solve. *)
Definition tolerant : ADMM.t :=
  ADMM.mk 1 3 (3 # 4) 1 (1 # 2) (of_rows [[1]]) (of_rows [[1 # 2]])
          (zeros 1 1) (zeros 1 1) (zeros 1 1) None.

(** float32 values: 2.0, and the Python floats 0.01 and 0.005 (the
    binary64 numbers 5764607523034235 * 2^-59 and * 2^-60) converted to
    float32. *)
Definition two32 : spec_float := Float32.of_binary 2 0.
Definition alpha32 : spec_float := Float32.of_binary 5764607523034235 (-59).
Definition eps32 : spec_float := Float32.of_binary 5764607523034235 (-60).




(** What is printed of a solve: estimate and trace, in lowest terms. *)
Definition shown (r : Tensor * list Q * ADMM.t) : list (list Q) * list Q :=
  let '(est, tr, _) := r in (to_rows est, map Qred tr).
End Ex.

(** ** The error monad and the tensor operations *)

Lemma bind_Ok {A B : Type} (c : result A) (k : A -> result B) (b : B) :
  bind c k = Ok b -> exists a, c = Ok a /\ k a = Ok b.
Proof.
  destruct c as [a|e]; cbn; intros E; [exists a; auto | discriminate].
Qed.

(** Splits a hypothesis [x <- c ;; k = Ok b] into its two runs. *)
Ltac bind_inv E :=
  let a := fresh "r" in
  let E1 := fresh "E" in
  apply bind_Ok in E; destruct E as (a & E1 & E).

Lemma bdim_same (a : nat) : bdim a a = Ok a.
Proof. unfold bdim. now rewrite Nat.eqb_refl. Qed.

Lemma bidx_lt (d i : nat) : (i < d)%nat -> bidx d i = i.
Proof.
  unfold bidx. destruct (Nat.eqb_spec d 1); [lia | reflexivity].
Qed.

Lemma same_shape_refl (a : Tensor) : same_shape a a.
Proof. split; reflexivity. Qed.

Lemma same_shape_sym (a b : Tensor) : same_shape a b -> same_shape b a.
Proof. intros [? ?]; split; congruence. Qed.

Lemma same_shape_trans (a b c : Tensor) :
  same_shape a b -> same_shape b c -> same_shape a c.
Proof. intros [? ?] [? ?]; split; congruence. Qed.

Lemma has_shape_true (t : Tensor) (r c : nat) :
  has_shape t r c = true <-> nrows t = r /\ ncols t = c.
Proof.
  unfold has_shape. rewrite andb_true_iff, !Nat.eqb_eq. tauto.
Qed.

(** On two tensors of one shape an element-wise operation succeeds, keeps
    the shape and combines the entries position by position. *)
Lemma broadcast2_same (f : Q -> Q -> Q) (a b : Tensor) :
  same_shape a b ->
  exists t, broadcast2 f a b = Ok t /\ same_shape t a /\
            forall i j, (i < nrows a)%nat -> (j < ncols a)%nat ->
                        item t i j = f (item a i j) (item b i j).
Proof.
  intros [Hr Hc]. unfold broadcast2. rewrite <- Hr, <- Hc, !bdim_same. cbn.
  eexists; split; [reflexivity|]. split; [split; reflexivity|].
  cbn. intros i j Hi Hj. now rewrite !bidx_lt by lia.
Qed.

Lemma broadcast2_shape (f : Q -> Q -> Q) (a b t : Tensor) :
  same_shape a b -> broadcast2 f a b = Ok t -> same_shape t a.
Proof.
  intros S E. destruct (broadcast2_same f a b S) as (t' & E' & S' & _).
  congruence.
Qed.

Lemma matmul_Ok (a b : Tensor) :
  ncols a = nrows b ->
  exists t, matmul a b = Ok t /\ nrows t = nrows a /\ ncols t = ncols b /\
            forall i j, item t i j =
                        sum_upto (ncols a) (fun k => item a i k * item b k j).
Proof.
  intros E. unfold matmul. rewrite E, Nat.eqb_refl.
  eexists; split; [reflexivity|]. cbn. auto.
Qed.

Lemma sum_upto_ext (n : nat) (f g : nat -> Q) :
  (forall i, (i < n)%nat -> f i == g i) -> sum_upto n f == sum_upto n g.
Proof.
  induction n as [|n IH]; intros E; cbn; [reflexivity|].
  rewrite IH by (intros; apply E; lia). now rewrite (E n) by lia.
Qed.

Lemma Qclamp_bounds (lo hi q : Q) :
  lo <= hi -> lo <= Qclamp lo hi q /\ Qclamp lo hi q <= hi.
Proof.
  intros L. unfold Qclamp. split.
  - apply Q.min_glb; [apply Q.le_max_r | exact L].
  - apply Q.le_min_r.
Qed.

(** ** The attack [BIM], for every model *)

(** The projection that ends every inner step. *)
Lemma project_within (eps : Q) (x adv' d adv : Tensor) :
  0 <= eps -> same_shape adv' x ->
  tsub adv' x = Ok d ->
  tadd x (torch_clamp d (- eps) eps) = Ok adv ->
  within eps x adv.
Proof.
  intros He S Ed Ea.
  destruct (broadcast2_same Qminus adv' x S) as (d' & Ed' & Sd & _).
  unfold tsub in Ed. rewrite Ed in Ed'. injection Ed' as <-.
  assert (Se : same_shape x (torch_clamp d (- eps) eps)).
  { apply same_shape_sym. apply same_shape_trans with adv'; [|exact S].
    destruct Sd; split; assumption. }
  destruct (broadcast2_same Qplus x _ Se) as (a' & Ea' & Sa & Ia).
  unfold tadd in Ea. rewrite Ea in Ea'. injection Ea' as <-.
  split; [exact Sa|]. intros i j Hi Hj. rewrite (Ia i j Hi Hj).
  unfold torch_clamp, pointwise. cbn [item].
  destruct (Qclamp_bounds (- eps) eps (item d i j)) as [L U]; [lra|].
  set (c := Qclamp (- eps) eps (item d i j)) in *.
  apply (proj2 (Qabs_Qle_condition _ _)). split; lra.
Qed.

Section BIM_facts.
Context {M : Type} {module : utills.nnModule M} {autograd : utills.Autograd M}.
Variables (x s_gt : Tensor) (eps alpha : Q).

(** One inner step, when it succeeds, ends on a projected point. *)
Lemma BIM_loop_S (n : nat) (model : M) (adv_x : Tensor) (delta : option Tensor)
      (out : Tensor * option Tensor * M) :
  utills.BIM_loop (S n) model x s_gt eps alpha adv_x delta = Ok out ->
  exists s_hat errs model' cost g a1 d a2,
    utills.call model adv_x = Ok (s_hat, errs, model') /\
    MSELoss s_gt s_hat = Ok cost /\
    utills.grad model adv_x s_gt = Ok g /\
    tadd adv_x (scale alpha (torch_sign g)) = Ok a1 /\
    tsub a1 x = Ok d /\
    tadd x (torch_clamp d (- eps) eps) = Ok a2 /\
    utills.BIM_loop n (utills.zero_grad model') x s_gt eps alpha a2
                    (Some (scale alpha (torch_sign g))) = Ok out.
Proof.
  cbn [utills.BIM_loop]. intros E.
  bind_inv E. destruct r as [[s_hat errs] model'].
  bind_inv E. bind_inv E. bind_inv E. bind_inv E. bind_inv E.
  repeat eexists; eassumption.
Qed.

Lemma BIM_loop_invariant (n : nat) :
  0 <= eps ->
  forall (model : M) (adv_x : Tensor) (delta : option Tensor) adv delta' model',
    same_shape adv_x x ->
    (delta <> None -> within eps x adv_x) ->
    utills.BIM_loop n model x s_gt eps alpha adv_x delta = Ok (adv, delta', model') ->
    same_shape adv x /\ (delta' <> None -> within eps x adv).
Proof.
  intros He. induction n as [|n IH]; intros model adv_x delta adv delta' model' S W E.
  - cbn in E. injection E as <- <- <-. auto.
  - apply BIM_loop_S in E.
    destruct E as (s_hat & errs & model1 & cost & g & a1 & d & a2 &
                   Ec & El & Eg & E1 & Ed & E2 & E).
    assert (S1 : same_shape a1 x).
    { apply same_shape_trans with adv_x; [|exact S].
      apply (broadcast2_shape Qplus adv_x (scale alpha (torch_sign g))); [|exact E1].
      apply same_shape_sym. apply (utills.grad_shape _ _ _ _ Eg). }
    pose proof (project_within eps x a1 d a2 He S1 Ed E2) as W2.
    apply (IH _ _ _ _ _ _ (proj1 W2) (fun _ => W2) E).
Qed.

(** The loop unbinds nothing: [delta] is bound at the exit as soon as it
    was bound at the entry or one step ran. *)
Lemma BIM_loop_delta (n : nat) :
  forall (model : M) (adv_x : Tensor) (delta : option Tensor) adv delta' model',
    utills.BIM_loop n model x s_gt eps alpha adv_x delta = Ok (adv, delta', model') ->
    delta' = None -> n = O /\ delta = None.
Proof.
  induction n as [|n IH]; intros model adv_x delta adv delta' model' E N.
  - cbn in E. injection E as <- <- <-. auto.
  - apply BIM_loop_S in E.
    destruct E as (? & ? & ? & ? & ? & ? & ? & ? & _ & _ & _ & _ & _ & _ & E).
    destruct (IH _ _ _ _ _ _ E N) as [_ Hd]. discriminate.
Qed.

(** [k + n] steps are [k] steps followed by [n] steps. *)
Lemma BIM_loop_app (k n : nat) :
  forall (model : M) (adv_x : Tensor) (delta : option Tensor),
    utills.BIM_loop (k + n) model x s_gt eps alpha adv_x delta =
    ('(a, d, mdl) <- utills.BIM_loop k model x s_gt eps alpha adv_x delta ;;
     utills.BIM_loop n mdl x s_gt eps alpha a d).
Proof.
  induction k as [|k IH]; intros model adv_x delta; [reflexivity|].
  cbn [Nat.add utills.BIM_loop].
  destruct (utills.call model adv_x) as [[[s_hat errs] model']|e]; [|reflexivity].
  cbn [bind].
  destruct (MSELoss s_gt s_hat); [|reflexivity]. cbn [bind].
  destruct (utills.grad model adv_x s_gt); [|reflexivity]. cbn [bind].
  destruct (tadd adv_x _); [|reflexivity]. cbn [bind].
  destruct (tsub _ x); [|reflexivity]. cbn [bind].
  destruct (tadd x _); [|reflexivity]. cbn [bind].
  apply IH.
Qed.

(** What a returning call went through. *)
Lemma BIM_Ok (model : M) (steps : Z) adv delta model' :
  utills.BIM model x s_gt eps alpha steps = Ok (adv, delta, model') ->
  (1 <= steps)%Z /\
  utills.BIM_loop (Z.to_nat steps) model x s_gt eps alpha x None
  = Ok (adv, Some delta, model').
Proof.
  unfold utills.BIM. intros E. bind_inv E. destruct r as [[a d] mdl].
  destruct d as [d|]; [|discriminate]. injection E as <- <- <-.
  split; [|exact E0].
  destruct (Z.to_nat steps) eqn:En; [|lia].
  cbn in E0. discriminate.
Qed.
End BIM_facts.

(** C5. With eps == 0 the attack, when it returns (which takes at least
    one inner step), returns the original observation: same shape, equal
    entries, whatever the model, the ground truth and alpha. *)
Theorem BIM_eps_zero_returns_original
        {M : Type} {module : utills.nnModule M} {autograd : utills.Autograd M}
        (model : M) (x s_gt : Tensor) (eps alpha : Q) (steps : Z)
        (adv delta : Tensor) (model' : M) :
  eps == 0 ->
  utills.BIM model x s_gt eps alpha steps = Ok (adv, delta, model') ->
  (1 <= steps)%Z /\ tensor_eq adv x.
Proof.
  intros He E. apply BIM_Ok in E. destruct E as [Hs E]. split; [exact Hs|].
  assert (L : 0 <= eps) by lra.
  apply (BIM_loop_invariant x s_gt eps alpha _ L) in E.
  - destruct E as [_ W]. destruct W as [S B]; [discriminate|].
    split; [exact S|]. intros i j Hi Hj. destruct S as [Sr Sc].
    specialize (B i j ltac:(lia) ltac:(lia)).
    apply (proj1 (Qabs_Qle_condition _ _)) in B. lra.
  - apply same_shape_refl.
  - intros N. now elim N.
Qed.

(** C9. If, at some inner step, the solver call and the loss succeed and
    torch.autograd.grad raises because there is no gradient with respect to
    the adversarial observation, the attack raises that very error to its
    caller: it returns no perturbation at all. *)
Theorem BIM_gradient_failure_surfaces
        {M : Type} {module : utills.nnModule M} {autograd : utills.Autograd M}
        (model : M) (x s_gt : Tensor) (eps alpha : Q) (steps : Z)
        (k : nat) (adv_k : Tensor) (delta_k : option Tensor) (model_k : M)
        (s_hat : Tensor) (errs : list Q) (model' : M) (cost : Q) (e : exn) :
  (k < Z.to_nat steps)%nat ->
  utills.BIM_loop k model x s_gt eps alpha x None = Ok (adv_k, delta_k, model_k) ->
  utills.call model_k adv_k = Ok (s_hat, errs, model') ->
  MSELoss s_gt s_hat = Ok cost ->
  utills.grad model_k adv_k s_gt = Err e ->
  utills.BIM model x s_gt eps alpha steps = Err e.
Proof.
  intros Hk Ek Ec El Eg. unfold utills.BIM.
  replace (Z.to_nat steps) with (k + S (Z.to_nat steps - S k))%nat by lia.
  rewrite BIM_loop_app, Ek. cbn [bind utills.BIM_loop].
  rewrite Ec. cbn [bind]. rewrite El. cbn [bind]. rewrite Eg. reflexivity.
Qed.

(** ** The solver [ADMM] *)

Ltac shape_simpl :=
  cbn [nrows ncols item scale pointwise torch_abs torch_sign torch_clamp sub_scalar square
       zeros transpose ADMM.mu ADMM.max_iter ADMM.eps ADMM.rho ADMM.lambda_
       ADMM.H ADMM.left_term ADMM.s ADMM.u ADMM.v ADMM.model_params
       ADMM.set_s ADMM.set_u ADMM.set_v] in *.

(** Runs the next element-wise operation of the goal on operands of one
    shape, naming its result. *)
Ltac run_broadcast t :=
  match goal with
  | |- context [broadcast2 ?f ?a ?b] =>
      let E := fresh "E" t in
      let Sr := fresh "R" t in
      let Sc := fresh "C" t in
      let I := fresh "I" t in
      destruct (broadcast2_same f a b) as (t & E & [Sr Sc] & I);
      [ split; shape_simpl; congruence
      | rewrite E; cbn [bind]; shape_simpl ]
  end.

Ltac run_matmul t :=
  match goal with
  | |- context [matmul ?a ?b] =>
      let E := fresh "E" t in
      let Sr := fresh "R" t in
      let Sc := fresh "C" t in
      let I := fresh "I" t in
      destruct (matmul_Ok a b) as (t & E & Sr & Sc & I);
      [ shape_simpl; congruence
      | rewrite E; cbn [bind]; shape_simpl ]
  end.

Section ADMM_facts.
Context {consts : utills.Constants}.

Lemma well_shaped_true (self : ADMM.t) (x : Tensor) :
  well_shaped self x = true <->
  (ncols utills.H = utills.m /\
   (nrows x = nrows utills.H /\ ncols x = 1%nat) /\
   (nrows (ADMM.H self) = nrows utills.H /\ ncols (ADMM.H self) = utills.m) /\
   (nrows (ADMM.left_term self) = utills.m /\ ncols (ADMM.left_term self) = utills.m) /\
   (nrows (ADMM.s self) = utills.m /\ ncols (ADMM.s self) = 1%nat) /\
   (nrows (ADMM.u self) = utills.m /\ ncols (ADMM.u self) = 1%nat) /\
   (nrows (ADMM.v self) = utills.m /\ ncols (ADMM.v self) = 1%nat) /\
   Qeq_bool (2 * ADMM.lambda_ self) 0 = false).
Proof.
  unfold well_shaped.
  rewrite !andb_true_iff, !has_shape_true, Nat.eqb_eq, negb_true_iff. tauto.
Qed.

(** On the shapes the program runs with, one iteration's updates succeed,
    keep the shapes and touch nothing but s, v and u. *)
Lemma forward_update_Ok (self : ADMM.t) (x : Tensor) :
  well_shaped self x = true ->
  exists self', ADMM.forward_update self x = Ok self' /\
                well_shaped self' x = true /\ same_config self self'.
Proof.
  intros W. apply well_shaped_true in W.
  destruct W as (Hm & [Xr Xc] & [Hr Hc] & [Lr Lc] & [Sr Sc] & [Ur Uc] & [Vr Vc] & Lam).
  unfold ADMM.forward_update, ADMM.shrinkage, tadd, tsub, torch_max, torch_mul, truediv.
  run_matmul Htx. run_broadcast d. run_broadcast right_term.
  run_matmul s'. run_broadcast su. rewrite Lam. cbn [bind].
  run_broadcast t. run_broadcast v'. run_broadcast sv. run_broadcast u'.
  eexists; split; [reflexivity|]. split.
  - apply well_shaped_true. shape_simpl. repeat split; congruence.
  - repeat split.
Qed.

Lemma converged_Ok (self : ADMM.t) (x s_prev : Tensor) :
  well_shaped self x = true -> has_shape s_prev utills.m 1 = true ->
  exists b, ADMM.converged self s_prev = Ok b.
Proof.
  intros W P. apply well_shaped_true in W. apply has_shape_true in P.
  destruct W as (_ & _ & _ & _ & [Sr Sc] & _). destruct P as [Pr Pc].
  unfold ADMM.converged, tsub. run_broadcast d. eexists; reflexivity.
Qed.

Lemma recovery_error_Ok (self : ADMM.t) (x : Tensor) :
  well_shaped self x = true -> exists e, ADMM.recovery_error self x = Ok e.
Proof.
  intros W. apply well_shaped_true in W.
  destruct W as (Hm & [Xr Xc] & [Hr Hc] & _ & [Sr Sc] & _).
  unfold ADMM.recovery_error, tsub. run_matmul Hs. run_broadcast r.
  eexists; reflexivity.
Qed.

Lemma well_shaped_s (self : ADMM.t) (x : Tensor) :
  well_shaped self x = true -> has_shape (ADMM.s self) utills.m 1 = true.
Proof.
  intros W. apply well_shaped_true in W. apply has_shape_true. tauto.
Qed.

(** The loop, from any object and with any trace collected so far:
    what a returning run went through. *)
Lemma forward_loop_sound (k : nat) :
  forall (self : ADMM.t) (x : Tensor) (tr0 : list Q) self' tr',
    ADMM.forward_loop k self x tr0 = Ok (self', tr') ->
    exists K tr,
      tr' = tr0 ++ tr /\
      (K <= k)%nat /\ iterate K self x = Ok self' /\
      trace_of self x tr /\
      ((length tr = K /\ K = k) \/
       (S (length tr) = K /\ stopped_at self x K self')).
Proof.
  induction k as [|k IH]; intros self x tr0 self' tr' E.
  - cbn in E. injection E as <- <-. exists O, []. rewrite app_nil_r.
    repeat split; auto. intros j Hj. cbn in Hj. lia.
  - cbn [ADMM.forward_loop] in E.
    apply bind_Ok in E. destruct E as (self1 & E1 & E).
    apply bind_Ok in E. destruct E as (b & Eb & E).
    destruct b.
    + injection E as <- <-. exists 1%nat, []. rewrite app_nil_r.
      split; [reflexivity|]. split; [lia|]. split; [cbn; now rewrite E1|].
      split; [intros j Hj; cbn in Hj; lia|]. right. split; [reflexivity|].
      exists O, self. cbn. auto.
    + apply bind_Ok in E. destruct E as (e & Ee & E).
      destruct (IH _ _ _ _ _ E) as (K & tr & -> & HK & Ei & Ht & Hs).
      exists (S K), (e :: tr).
      split; [rewrite <- app_assoc; reflexivity|].
      split; [lia|]. split; [cbn; now rewrite E1|]. split.
      * intros [|j] Hj.
        -- exists self, self1. cbn. auto.
        -- cbn in Hj. destruct (Ht j ltac:(lia)) as (p & q & Ep & Eq & Ec & Er).
           exists p, q. cbn [iterate nth]. rewrite E1. cbn [bind]. auto.
      * destruct Hs as [[L1 L2]|[L1 (k' & p & Ek & Ep & Eu & Ec)]].
        -- left. cbn. lia.
        -- right. split; [cbn; lia|]. exists (S k'), p.
           cbn [iterate]. rewrite E1. cbn [bind]. subst K. auto.
Qed.

(** On the shapes the program runs with, the loop returns, converged or
    not, and keeps the shapes. *)
Lemma forward_loop_returns (k : nat) :
  forall (self : ADMM.t) (x : Tensor) (tr0 : list Q),
    well_shaped self x = true ->
    exists self' tr',
      ADMM.forward_loop k self x tr0 = Ok (self', tr') /\
      well_shaped self' x = true.
Proof.
  induction k as [|k IH]; intros self x tr0 W.
  - exists self, tr0. auto.
  - destruct (forward_update_Ok self x W) as (self1 & E1 & W1 & _).
    destruct (converged_Ok self1 x (ADMM.s self) W1 (well_shaped_s self x W))
      as (b & Eb).
    cbn [ADMM.forward_loop]. rewrite E1. cbn [bind]. rewrite Eb. cbn [bind].
    destruct b; [exists self1, tr0; auto|].
    destruct (recovery_error_Ok self1 x W1) as (e & Ee). rewrite Ee. cbn [bind].
    apply IH. exact W1.
Qed.
End ADMM_facts.

Section ADMM_forward.
Context {consts : utills.Constants}.

Lemma same_config_refl (a : ADMM.t) : same_config a a.
Proof. repeat split. Qed.

Lemma same_config_trans (a b c : ADMM.t) :
  same_config a b -> same_config b c -> same_config a c.
Proof.
  unfold same_config. intros (?&?&?&?&?&?&?&?) (?&?&?&?&?&?&?&?).
  repeat split; congruence.
Qed.

(** Whatever the shapes, a successful update leaves the configuration,
    the sensing matrix and the cached inverse as they were. *)
Lemma forward_update_config (self self' : ADMM.t) (x : Tensor) :
  ADMM.forward_update self x = Ok self' -> same_config self self'.
Proof.
  unfold ADMM.forward_update. intros E.
  do 9 bind_inv E. injection E as <-. repeat split.
Qed.

Lemma forward_loop_config (k : nat) :
  forall (self self' : ADMM.t) (x : Tensor) (tr tr' : list Q),
    ADMM.forward_loop k self x tr = Ok (self', tr') -> same_config self self'.
Proof.
  induction k as [|k IH]; intros self self' x tr tr' E.
  - cbn in E. injection E as <- <-. apply same_config_refl.
  - cbn [ADMM.forward_loop] in E. bind_inv E. bind_inv E.
    apply forward_update_config in E0.
    destruct r0.
    + injection E as <- <-. exact E0.
    + bind_inv E. apply IH in E. eapply same_config_trans; eassumption.
Qed.

Lemma forward_config (self self' : ADMM.t) (x est : Tensor) (tr : list Q) :
  ADMM.forward self x = Ok (est, tr, self') ->
  same_config self self' /\ est = ADMM.s self'.
Proof.
  unfold ADMM.forward. intros E. bind_inv E. destruct r as [self1 tr1].
  injection E as <- <- <-. split; [|reflexivity].
  eapply forward_loop_config; eassumption.
Qed.

Lemma well_shaped_same_shape (self : ADMM.t) (x x' : Tensor) :
  same_shape x' x -> well_shaped self x = true -> well_shaped self x' = true.
Proof.
  intros [Sr Sc] W. apply well_shaped_true in W. apply well_shaped_true.
  rewrite Sr, Sc. exact W.
Qed.

(** On the shapes the program runs with, [forward] returns. *)
Lemma forward_Ok (self : ADMM.t) (x : Tensor) :
  well_shaped self x = true ->
  exists tr self',
    ADMM.forward self x = Ok (ADMM.s self', tr, self') /\
    well_shaped self' x = true.
Proof.
  intros W.
  destruct (forward_loop_returns (Z.to_nat (ADMM.max_iter self)) self x [] W)
    as (self' & tr & El & W').
  exists tr, self'. unfold ADMM.forward. rewrite El. auto.
Qed.

(** What a returning [forward] went through. *)
Lemma forward_sound (self self' : ADMM.t) (x est : Tensor) (tr : list Q) :
  ADMM.forward self x = Ok (est, tr, self') ->
  exists K,
    est = ADMM.s self' /\
    (K <= Z.to_nat (ADMM.max_iter self))%nat /\
    iterate K self x = Ok self' /\
    trace_of self x tr /\
    ((length tr = K /\ K = Z.to_nat (ADMM.max_iter self)) \/
     (S (length tr) = K /\ stopped_at self x K self')).
Proof.
  unfold ADMM.forward. intros E. bind_inv E. destruct r as [self1 tr1].
  injection E as <- <- <-.
  destruct (forward_loop_sound _ _ _ _ _ _ E0) as (K & tr & Et & H).
  cbn in Et. subst tr1. exists K. auto.
Qed.
End ADMM_forward.

Section Convergence_test.
Context {consts : utills.Constants}.

Lemma sum_upto_1 (f : nat -> Q) : sum_upto 1 f == f O.
Proof. cbn. lra. Qed.

Lemma iterate_well_shaped (K : nat) :
  forall (self self' : ADMM.t) (x : Tensor),
    well_shaped self x = true -> iterate K self x = Ok self' ->
    well_shaped self' x = true /\ same_config self self'.
Proof.
  induction K as [|K IH]; intros self self' x W E.
  - cbn in E. injection E as <-. split; [exact W | apply same_config_refl].
  - cbn [iterate] in E. bind_inv E.
    destruct (forward_update_Ok self x W) as (self1 & E1 & W1 & C1).
    rewrite E1 in E0. injection E0 as <-.
    destruct (IH _ _ _ W1 E) as [W' C']. split; [exact W'|].
    eapply same_config_trans; eassumption.
Qed.

(** The test of line 113 compares the L1 norm of s - s_prev with the
    tolerance. *)
Lemma converged_is_l1_test (before after : ADMM.t) (x : Tensor) (b : bool) :
  well_shaped before x = true -> well_shaped after x = true ->
  ADMM.converged after (ADMM.s before) = Ok b ->
  (b = true <-> l1_change before after <= ADMM.eps after).
Proof.
  intros Wb Wa E. apply well_shaped_true in Wb. apply well_shaped_true in Wa.
  destruct Wb as (_ & _ & _ & _ & [Br Bc] & _).
  destruct Wa as (_ & _ & _ & _ & [Ar Ac] & _).
  unfold ADMM.converged, tsub in E.
  destruct (broadcast2_same Qminus (ADMM.s after) (ADMM.s before))
    as (d & Ed & [Rd Cd] & Id); [split; congruence|].
  rewrite Ed in E. cbn [bind] in E. injection E as <-.
  rewrite Qle_bool_iff.
  assert (L : torch_sum (torch_abs d) == l1_change before after).
  { unfold torch_sum, l1_change. shape_simpl. rewrite Rd, Cd, Ac.
    apply sum_upto_ext. intros i Hi. rewrite sum_upto_1.
    rewrite Id by lia. reflexivity. }
  rewrite L. reflexivity.
Qed.

(** The entry appended at line 116 is ||H s - x||_2^2. *)
Lemma recovery_error_is_residual (self : ADMM.t) (x : Tensor) (e : Q) :
  well_shaped self x = true ->
  ADMM.recovery_error self x = Ok e -> e == residual self x.
Proof.
  intros W E. apply well_shaped_true in W.
  destruct W as (Hm & [Xr Xc] & [Hr Hc] & _ & [Sr Sc] & _).
  unfold ADMM.recovery_error, tsub in E.
  destruct (matmul_Ok (ADMM.H self) (ADMM.s self)) as (Hs & EHs & RHs & CHs & IHs);
    [congruence|].
  rewrite EHs in E. cbn [bind] in E.
  destruct (broadcast2_same Qminus Hs x) as (r & Er & [Rr Cr] & Ir);
    [split; congruence|].
  rewrite Er in E. cbn [bind] in E. injection E as <-.
  unfold torch_sum, residual. shape_simpl. rewrite Rr, Cr, RHs, CHs, Sc.
  apply sum_upto_ext. intros i Hi. rewrite sum_upto_1.
  rewrite Ir by lia. rewrite IHs. reflexivity.
Qed.

(** The trace and the stop of a solve, read with the two formulas. *)
Lemma forward_sound_formulas (self self' : ADMM.t) (x est : Tensor) (tr : list Q) :
  well_shaped self x = true ->
  ADMM.forward self x = Ok (est, tr, self') ->
  exists K,
    (K <= Z.to_nat (ADMM.max_iter self))%nat /\
    iterate K self x = Ok self' /\
    trace_is_residuals self x tr /\
    ((length tr = K /\ K = Z.to_nat (ADMM.max_iter self)) \/
     (S (length tr) = K /\ converged_at self x K self')).
Proof.
  intros W E.
  destruct (forward_sound _ _ _ _ _ E) as (K & _ & HK & Ei & Ht & Hs).
  assert (step : forall k before after,
             iterate k self x = Ok before ->
             ADMM.forward_update before x = Ok after ->
             well_shaped before x = true /\ well_shaped after x = true /\
             ADMM.eps after = ADMM.eps self).
  { intros k before after Eb Ea.
    destruct (iterate_well_shaped _ _ _ _ W Eb) as [Wb Cb].
    destruct (forward_update_Ok before x Wb) as (a' & Ea' & Wa & Ca).
    rewrite Ea in Ea'. injection Ea' as <-.
    split; [exact Wb|]. split; [exact Wa|].
    destruct Cb as (_ & _ & Cb & _). destruct Ca as (_ & _ & Ca & _). congruence. }
  exists K. split; [exact HK|]. split; [exact Ei|]. split.
  - intros j Hj. destruct (Ht j Hj) as (before & after & Eb & Ea & Ec & Er).
    destruct (step _ _ _ Eb Ea) as (Wb & Wa & Eeps).
    exists before, after. split; [exact Eb|]. split; [exact Ea|]. split.
    + rewrite <- Eeps. intros L.
      apply (converged_is_l1_test _ _ _ _ Wb Wa Ec) in L. discriminate.
    + apply recovery_error_is_residual; assumption.
  - destruct Hs as [Hs|[HS (k & before & Ek & Eb & Ea & Ec)]]; [left; exact Hs|].
    right. split; [exact HS|].
    destruct (step _ _ _ Eb Ea) as (Wb & Wa & Eeps).
    exists k, before. repeat split; auto.
    rewrite <- Eeps. now apply (converged_is_l1_test _ _ _ _ Wb Wa Ec).
Qed.
End Convergence_test.

(** C6. On the shapes the program runs with, a solve call returns the
    object and the estimate of some iteration K <= max_iter.  Every entry
    of the trace is the reconstruction residual ||H s - x||_2^2 after an
    iteration at which the L1 norm of s - s_prev was above the tolerance,
    in iteration order.  Either the budget ran out (the trace has
    K = max_iter entries), or at iteration K the L1 norm of s - s_prev was
    within the tolerance: the solver stopped there at once and appended
    nothing for it (the trace has K - 1 entries). *)
Theorem forward_stops_at_convergence
        {consts : utills.Constants} (self : ADMM.t) (x : Tensor) :
  well_shaped self x = true ->
  exists (K : nat) (tr : list Q) (self' : ADMM.t),
    ADMM.forward self x = Ok (ADMM.s self', tr, self') /\
    (K <= Z.to_nat (ADMM.max_iter self))%nat /\
    iterate K self x = Ok self' /\
    trace_is_residuals self x tr /\
    ((length tr = K /\ K = Z.to_nat (ADMM.max_iter self)) \/
     (S (length tr) = K /\ converged_at self x K self')).
Proof.
  intros W. destruct (forward_Ok self x W) as (tr & self' & E & _).
  destruct (forward_sound_formulas _ _ _ _ _ W E) as (K & H).
  exists K, tr, self'. split; [exact E | exact H].
Qed.

(** C7. On the shapes the program runs with, a solve call returns,
    converged or not: running out of iterations is no error.  And whenever
    a solve call returns, it ran K <= max_iter iterations of the update and
    its trace has at most K entries, hence at most max_iter. *)
Theorem forward_terminates_within_max_iter
        {consts : utills.Constants} (self : ADMM.t) (x : Tensor) :
  (well_shaped self x = true ->
   exists est tr self', ADMM.forward self x = Ok (est, tr, self')) /\
  (forall est tr self',
      ADMM.forward self x = Ok (est, tr, self') ->
      exists K : nat,
        iterate K self x = Ok self' /\
        (length tr <= K <= Z.to_nat (ADMM.max_iter self))%nat /\
        ((0 <= ADMM.max_iter self)%Z ->
         (Z.of_nat (length tr) <= ADMM.max_iter self)%Z)).
Proof.
  split.
  - intros W. destruct (forward_Ok self x W) as (tr & self' & E & _).
    eauto.
  - intros est tr self' E.
    destruct (forward_sound _ _ _ _ _ E) as (K & _ & HK & Ei & _ & Hs).
    exists K. split; [exact Ei|].
    assert (L : (length tr <= K)%nat) by (destruct Hs as [[? ?]|[? ?]]; lia).
    split; lia.
Qed.

(** ** Construction *)

(** The constructor always reaches torch.linalg.inv, and hands it
    H^T H + penalty I. *)
Lemma init_reaches_inverse (H : Tensor) (mu lam : Q) (mi : Z) (eps rho : Q) :
  exists A,
    tensor_eq A (gram H rho) /\
    ADMM.__init__ H mu lam mi eps rho =
    (left_term <- linalg_inv A ;;
     Ok (ADMM.mk mu mi eps rho lam H left_term
           (zeros (ncols H) 1) (zeros (ncols H) 1) (zeros (ncols H) 1) None)).
Proof.
  unfold ADMM.__init__, tadd.
  destruct (matmul_Ok (transpose H) H eq_refl) as (HtH & E & Sr & Sc & I).
  rewrite E. cbn [bind]. shape_simpl.
  destruct (broadcast2_same Qplus HtH (scale rho (eye (ncols H))))
    as (A & EA & [Ar Ac] & IA); [split; assumption|].
  rewrite EA. cbn [bind]. exists A. split; [|reflexivity].
  split; [split; cbn; congruence|].
  intros i j Hi Hj. rewrite IA by congruence. rewrite I. cbn. reflexivity.
Qed.

(** C3 (amended). The constructor checks none of its hyperparameters: it
    stores step size, regularization weight, iteration budget, tolerance
    and penalty as they are given, positive or not, and zeroes s, u and v.
    It always attempts the inversion of H^T H + penalty I, and it fails
    exactly when that inversion fails, with the error of the inversion. *)
Theorem init_checks_no_hyperparameter
        (H : Tensor) (mu lam : Q) (mi : Z) (eps rho : Q) :
  exists A,
    tensor_eq A (gram H rho) /\
    match linalg_inv A with
    | Ok left_term =>
        ADMM.__init__ H mu lam mi eps rho =
        Ok (ADMM.mk mu mi eps rho lam H left_term
              (zeros (ncols H) 1) (zeros (ncols H) 1) (zeros (ncols H) 1) None)
    | Err e => ADMM.__init__ H mu lam mi eps rho = Err e
    end.
Proof.
  destruct (init_reaches_inverse H mu lam mi eps rho) as (A & EA & E).
  exists A. split; [exact EA|]. rewrite E. now destruct (linalg_inv A).
Qed.

Lemma init_Ok (H : Tensor) (mu lam : Q) (mi : Z) (eps rho : Q) (self : ADMM.t) :
  ADMM.__init__ H mu lam mi eps rho = Ok self ->
  exists left_term,
    self = ADMM.mk mu mi eps rho lam H left_term
             (zeros (ncols H) 1) (zeros (ncols H) 1) (zeros (ncols H) 1) None.
Proof.
  unfold ADMM.__init__. intros E. do 3 bind_inv E. injection E as <-.
  eexists; reflexivity.
Qed.

Lemma linalg_inv_shape (a t : Tensor) :
  linalg_inv a = Ok t -> same_shape t a.
Proof.
  unfold linalg_inv. destruct (negb _); [discriminate|].
  destruct (Qeq_bool _ 0); [discriminate|].
  intros E. injection E as <-. split; reflexivity.
Qed.

(** A solver constructed on the module-level [utills.H], as
    [create_ADMM()] constructs it, has the shapes the program runs with. *)
Lemma init_well_shaped
      {consts : utills.Constants} (mu lam : Q) (mi : Z) (eps rho : Q)
      (self : ADMM.t) (x : Tensor) :
  ncols utills.H = utills.m ->
  has_shape x (nrows utills.H) 1 = true ->
  Qeq_bool (2 * lam) 0 = false ->
  ADMM.__init__ utills.H mu lam mi eps rho = Ok self ->
  well_shaped self x = true /\ ADMM.H self = utills.H.
Proof.
  intros Hm Hx Hl E.
  destruct (init_reaches_inverse utills.H mu lam mi eps rho) as (A & [[Ar Ac] _] & EA).
  rewrite EA in E. bind_inv E. injection E as <-.
  apply linalg_inv_shape in E0. destruct E0 as [Lr Lc].
  apply has_shape_true in Hx. cbn in Ar, Ac.
  split; [|reflexivity]. apply well_shaped_true. shape_simpl.
  repeat split; try tauto; congruence.
Qed.

(** ** No operation resets the state *)



Section No_reset.
Context {consts : utills.Constants}.






End No_reset.


(** ** The exposed loss *)

(** C8. For an estimate and an observation of the solver's dimensions,
    loss_func returns 0.5 ||H s - x||_2^2 + penalty ||s||_1, the L1 term
    weighted by the penalty weight rho (lambda_ does not occur), and it
    leaves the solver object as it was. *)
Theorem loss_func_value (self : ADMM.t) (s x_sig : Tensor) :
  ncols (ADMM.H self) = nrows s ->
  nrows x_sig = nrows (ADMM.H self) -> ncols x_sig = ncols s ->
  exists val,
    ADMM.loss_func self s x_sig = Ok (val, self) /\
    val == spec_loss self s x_sig.
Proof.
  intros Hc Xr Xc. unfold ADMM.loss_func, tsub.
  run_matmul Hs. run_broadcast r. eexists; split; [reflexivity|].
  unfold spec_loss, norm1, torch_sum. shape_simpl.
  rewrite Rr, Cr, RHs, CHs.
  apply Qplus_comp; apply Qmult_comp; try reflexivity.
  apply sum_upto_ext. intros i Hi. apply sum_upto_ext. intros j Hj.
  rewrite Ir by lia. rewrite IHs. reflexivity.
Qed.

(** ** When the attack returns *)

Lemma broadcast2_compatible (f : Q -> Q -> Q) (a b : Tensor) :
  compatible a b = true -> exists t, broadcast2 f a b = Ok t.
Proof.
  unfold compatible, broadcast2. intros C. apply andb_true_iff in C.
  destruct C as [Cr Cc].
  destruct (bdim (nrows a) (nrows b)); [|discriminate].
  destruct (bdim (ncols a) (ncols b)); [|discriminate].
  eexists; reflexivity.
Qed.

Lemma MSELoss_Ok (input target : Tensor) :
  compatible input target = true -> exists cost, MSELoss input target = Ok cost.
Proof.
  intros C. unfold MSELoss, tsub.
  destruct (broadcast2_compatible Qminus _ _ C) as (d & ->). eexists; reflexivity.
Qed.

Section BIM_total.
Context {M : Type} {module : utills.nnModule M} {autograd : utills.Autograd M}.
Variables (x s_gt : Tensor) (eps alpha : Q).

(** [Inv] holds of the model on entry and every inner step keeps it;
    under it the call, the loss and the gradient succeed. *)
Variable Inv : M -> Prop.
Hypothesis step_Ok : forall (model : M) (adv_x : Tensor),
  Inv model -> same_shape adv_x x ->
  exists s_hat errs model' cost g,
    utills.call model adv_x = Ok (s_hat, errs, model') /\
    Inv (utills.zero_grad model') /\
    MSELoss s_gt s_hat = Ok cost /\
    utills.grad model adv_x s_gt = Ok g.

Lemma BIM_loop_total (n : nat) :
  forall (model : M) (adv_x : Tensor) (delta : option Tensor),
    Inv model -> same_shape adv_x x ->
    exists out, utills.BIM_loop n model x s_gt eps alpha adv_x delta = Ok out.
Proof.
  induction n as [|n IH]; intros model adv_x delta I S.
  - eexists; reflexivity.
  - destruct (step_Ok model adv_x I S)
      as (s_hat & errs & model' & cost & g & Ec & I' & El & Eg).
    cbn [utills.BIM_loop]. rewrite Ec. cbn [bind]. rewrite El. cbn [bind].
    rewrite Eg. cbn [bind]. unfold tadd, tsub.
    pose proof (utills.grad_shape _ _ _ _ Eg) as [Gr Gc].
    destruct S as [Sr Sc].
    run_broadcast a1. run_broadcast d. run_broadcast a2.
    apply IH; [exact I'|]. split; congruence.
Qed.

Lemma BIM_total (model : M) (steps : Z) :
  Inv model -> (1 <= steps)%Z ->
  exists adv delta model',
    utills.BIM model x s_gt eps alpha steps = Ok (adv, delta, model').
Proof.
  intros I Hs. unfold utills.BIM.
  destruct (BIM_loop_total (Z.to_nat steps) model x None I (same_shape_refl x))
    as ([[adv delta] model'] & E).
  rewrite E. cbn [bind]. destruct delta as [delta|].
  - repeat eexists.
  - apply BIM_loop_delta in E; [|reflexivity]. lia.
Qed.
End BIM_total.

Lemma BIM_no_step {M : Type} {module : utills.nnModule M} {autograd : utills.Autograd M}
      (model : M) (x s_gt : Tensor) (eps alpha : Q) (steps : Z) :
  (steps <= 0)%Z ->
  utills.BIM model x s_gt eps alpha steps = Err UnboundLocalError.
Proof.
  intros Hs. unfold utills.BIM.
  replace (Z.to_nat steps) with O by lia. reflexivity.
Qed.

(** C10. With steps <= 0 the loop body never runs, [delta] is never
    assigned, and the return statement raises UnboundLocalError: the attack
    returns nothing, not even the original observation.  With steps >= 1 it
    returns: here for an ADMM solver on the shapes the program runs with,
    which runs at least one iteration per solve, so that torch has a
    gradient to compute. *)
Theorem BIM_returns_only_for_positive_steps
        {consts : utills.Constants} {autograd : utills.Autograd ADMM.t}
        (self : ADMM.t) (x s_gt : Tensor) (eps alpha : Q) (steps : Z) :
  well_shaped self x = true ->
  compatible s_gt (zeros utills.m 1) = true ->
  (1 <= ADMM.max_iter self)%Z ->
  (forall model adv_x s,
      (1 <= ADMM.max_iter model)%Z -> is_ok (utills.grad model adv_x s) = true) ->
  ((steps <= 0)%Z ->
   utills.BIM self x s_gt eps alpha steps = Err UnboundLocalError) /\
  ((1 <= steps)%Z ->
   exists adv delta self',
     utills.BIM self x s_gt eps alpha steps = Ok (adv, delta, self')).
Proof.
  intros W C Hmi G. split; [apply BIM_no_step|].
  apply (BIM_total x s_gt eps alpha
           (fun model => well_shaped model x = true /\ (1 <= ADMM.max_iter model)%Z));
    [|split; assumption].
  intros model adv_x [Wm Mi] S.
  destruct (forward_Ok model adv_x (well_shaped_same_shape _ _ _ S Wm))
    as (tr & model' & Ef & W').
  destruct (forward_config _ _ _ _ _ Ef) as [(_ & Cmi & _) _].
  assert (Cs : compatible s_gt (ADMM.s model') = true).
  { apply well_shaped_true in W'.
    destruct W' as (_ & _ & _ & _ & [Sr Sc] & _).
    unfold compatible in *. now rewrite Sr, Sc. }
  destruct (MSELoss_Ok _ _ Cs) as (cost & El).
  specialize (G model adv_x s_gt Mi).
  destruct (utills.grad model adv_x s_gt) as [g|] eqn:Eg; [|discriminate].
  exists (ADMM.s model'), tr, model', cost, g.
  repeat split; auto.
  - apply (well_shaped_same_shape _ _ _ (same_shape_sym _ _ S)) in W'. exact W'.
  - cbn. lia.
Qed.

(** ** The update against its description *)

(** When the solver was built on the module-level [utills.H] itself, as
    [create_ADMM()] builds it, the update of admm.py is the described one:
    same s, and v and u equal entry by entry. *)
Lemma forward_update_as_described
      {consts : utills.Constants} (self : ADMM.t) (x : Tensor) :
  well_shaped self x = true -> ADMM.H self = utills.H ->
  exists code spec,
    ADMM.forward_update self x = Ok code /\
    spec_update self x = Ok spec /\
    same_config code spec /\
    ADMM.s code = ADMM.s spec /\
    tensor_eq (ADMM.v code) (ADMM.v spec) /\
    tensor_eq (ADMM.u code) (ADMM.u spec).
Proof.
  intros W EH. apply well_shaped_true in W.
  destruct W as (Hm & [Xr Xc] & [Hr Hc] & [Lr Lc] & [Sr Sc] & [Ur Uc] & [Vr Vc] & Lam).
  unfold ADMM.forward_update, spec_update, ADMM.shrinkage,
    tadd, tsub, torch_max, torch_mul, truediv.
  rewrite EH.
  run_matmul Htx. run_broadcast d. run_broadcast right_term.
  run_matmul s'. run_broadcast su. rewrite Lam. cbn [bind].
  set (beta := ADMM.rho self / (2 * ADMM.lambda_ self)).
  run_broadcast t. run_broadcast v'. run_broadcast sv. run_broadcast u'.
  unfold spec_shrink.
  run_broadcast sv2. run_broadcast u2.
  do 2 eexists. split; [reflexivity|]. split; [reflexivity|].
  split; [repeat split|]. split; [reflexivity|]. shape_simpl.
  split.
  - split; [split; cbn; congruence|]. intros i j Hi Hj. cbn [item].
    rewrite Iv', It by congruence. reflexivity.
  - split; [split; cbn; congruence|]. intros i j Hi Hj.
    rewrite Iu', Iu2, Isv, Isv2, Iv', It by congruence. reflexivity.
Qed.

(** ** More of admm.py: the shrinkage operator *)

Lemma Qsign_cases (q : Q) :
  (0 < q /\ Qsign q == 1) \/ (q == 0 /\ Qsign q == 0) \/ (q < 0 /\ Qsign q == -(1)).
Proof.
  destruct q as [[|p|p] d]; unfold Qsign, Qlt, Qeq; cbn.
  - right; left. split; reflexivity.
  - left. split; [lia | reflexivity].
  - right; right. split; [lia | reflexivity].
Qed.

Lemma Qsign_mult_abs (q : Q) : Qsign q * Qabs q == q.
Proof.
  destruct (Qsign_cases q) as [[L E]|[[L E]|[L E]]]; rewrite E.
  - rewrite Qabs_pos by lra. lra.
  - rewrite L. cbn. reflexivity.
  - rewrite Qabs_neg by lra. lra.
Qed.

Lemma Qclamp_inside (lo hi q : Q) : lo <= q -> q <= hi -> Qclamp lo hi q == q.
Proof.
  intros L U. unfold Qclamp. rewrite Q.max_l by exact L. now rewrite Q.min_l.
Qed.

Lemma Qclamp_crossed (lo hi q : Q) : hi < lo -> Qclamp lo hi q == hi.
Proof.
  intros C. unfold Qclamp. apply Q.min_r.
  apply Qle_trans with lo; [lra | apply Q.le_max_r].
Qed.

Lemma sum_upto_nonneg (n : nat) (f : nat -> Q) :
  (forall i, (i < n)%nat -> 0 <= f i) -> 0 <= sum_upto n f.
Proof.
  induction n as [|n IH]; intros P; cbn; [lra|].
  pose proof (IH (fun i Hi => P i ltac:(lia))). pose proof (P n ltac:(lia)). lra.
Qed.

Lemma torch_sum_square_nonneg (t : Tensor) : 0 <= torch_sum (square t).
Proof.
  unfold torch_sum. apply sum_upto_nonneg. intros i _.
  apply sum_upto_nonneg. intros j _. cbn. nra.
Qed.

Lemma norm1_nonneg (t : Tensor) : 0 <= norm1 t.
Proof.
  unfold norm1, torch_sum. apply sum_upto_nonneg. intros i _.
  apply sum_upto_nonneg. intros j _. cbn. apply Qabs_nonneg.
Qed.

Section Shrinkage.
Context {consts : utills.Constants}.

(** On a column of [utills.m] entries the operator succeeds and works
    entry by entry. *)
Lemma shrinkage_Ok (x : Tensor) (beta : Q) :
  has_shape x utills.m 1 = true ->
  exists t, ADMM.shrinkage x beta = Ok t /\ same_shape t x /\
            forall i, (i < utills.m)%nat ->
                      item t i O =
                      Qsign (item x i O) * Qmax (Qabs (item x i O) - beta) 0.
Proof.
  intros P. apply has_shape_true in P. destruct P as [Xr Xc].
  unfold ADMM.shrinkage, torch_max, torch_mul.
  run_broadcast t. run_broadcast v.
  eexists; split; [reflexivity|]. split; [split; congruence|].
  intros i Hi. rewrite Iv, It by lia. reflexivity.
Qed.
End Shrinkage.

(** X1. On a column of m entries, shrinkage returns a column of m entries;
    an entry whose absolute value is at most beta becomes zero, any other
    entry x becomes sign(x) (|x| - beta). *)
Theorem shrinkage_thresholds
        {consts : utills.Constants} (x : Tensor) (beta : Q) :
  has_shape x utills.m 1 = true ->
  exists t,
    ADMM.shrinkage x beta = Ok t /\ has_shape t utills.m 1 = true /\
    forall i, (i < utills.m)%nat ->
      (Qabs (item x i O) <= beta -> item t i O == 0) /\
      (beta < Qabs (item x i O) ->
       item t i O == Qsign (item x i O) * (Qabs (item x i O) - beta)).
Proof.
  intros P. destruct (shrinkage_Ok x beta P) as (t & E & [Sr Sc] & I).
  exists t. split; [exact E|]. split.
  - apply has_shape_true in P. apply has_shape_true. split; lia.
  - intros i Hi. rewrite (I i Hi). split; intros B.
    + rewrite Q.max_r by lra. lra.
    + rewrite Q.max_l by lra. reflexivity.
Qed.

(** X2. With beta >= 0, shrinkage never enlarges an entry and never flips
    its sign: |out| <= |x| and out * x >= 0 in every entry. *)
Theorem shrinkage_never_grows
        {consts : utills.Constants} (x : Tensor) (beta : Q) :
  has_shape x utills.m 1 = true -> 0 <= beta ->
  exists t,
    ADMM.shrinkage x beta = Ok t /\
    forall i, (i < utills.m)%nat ->
      Qabs (item t i O) <= Qabs (item x i O) /\ 0 <= item t i O * item x i O.
Proof.
  intros P B. destruct (shrinkage_Ok x beta P) as (t & E & _ & I).
  exists t. split; [exact E|]. intros i Hi. rewrite (I i Hi).
  set (q := item x i O).
  assert (M : 0 <= Qmax (Qabs q - beta) 0 <= Qabs q).
  { destruct (Q.max_spec (Qabs q - beta) 0) as [[L ->]|[L ->]];
      pose proof (Qabs_nonneg q); lra. }
  set (c := Qmax (Qabs q - beta) 0) in *.
  destruct (Qsign_cases q) as [[L S]|[[L S]|[L S]]]; rewrite S.
  - rewrite Qabs_pos in M by lra. split.
    + rewrite (Qabs_pos q) by lra. rewrite Qabs_pos by lra. lra.
    + nra.
  - split.
    + setoid_replace (0 * c) with 0 by lra. rewrite L. cbn. lra.
    + nra.
  - rewrite Qabs_neg in M by lra. split.
    + rewrite (Qabs_neg q) by lra. rewrite Qabs_neg by lra. lra.
    + nra.
Qed.

(** X3. With beta == 0 shrinkage is the identity on a column of m
    entries. *)
Theorem shrinkage_zero_threshold
        {consts : utills.Constants} (x : Tensor) (beta : Q) :
  has_shape x utills.m 1 = true -> beta == 0 ->
  exists t, ADMM.shrinkage x beta = Ok t /\ tensor_eq t x.
Proof.
  intros P B. destruct (shrinkage_Ok x beta P) as (t & E & S & I).
  exists t. split; [exact E|]. split; [exact S|].
  apply has_shape_true in P. destruct P as [Xr Xc]. destruct S as [Sr Sc].
  intros i j Hi Hj. assert (j = O) by lia. subst j.
  rewrite (I i) by lia.
  rewrite Q.max_l by (pose proof (Qabs_nonneg (item x i O)); lra).
  rewrite B. setoid_replace (Qabs (item x i O) - 0) with (Qabs (item x i O)) by lra.
  apply Qsign_mult_abs.
Qed.

(** X4. shrinkage sizes its zero tensor with the module-level m: on a
    tensor whose number of rows is neither m nor 1 (m itself not being 1)
    torch cannot broadcast and shrinkage raises RuntimeError. *)
Theorem shrinkage_rejects_other_dimension
        {consts : utills.Constants} (x : Tensor) (beta : Q) :
  nrows x <> utills.m -> nrows x <> 1%nat -> utills.m <> 1%nat ->
  ADMM.shrinkage x beta = Err RuntimeError.
Proof.
  intros N1 N2 N3. unfold ADMM.shrinkage, torch_max, broadcast2, bdim.
  shape_simpl.
  destruct (Nat.eqb_spec (nrows x) utills.m); [contradiction|].
  destruct (Nat.eqb_spec (nrows x) 1); [contradiction|].
  destruct (Nat.eqb_spec utills.m 1); [contradiction|]. reflexivity.
Qed.

(** ** More of admm.py: solving *)

Section Forward_more.
Context {consts : utills.Constants}.

Lemma well_shaped_split (self : ADMM.t) (x : Tensor) :
  well_shaped self x =
  shapes_fit self x && negb (Qeq_bool (2 * ADMM.lambda_ self) 0).
Proof. reflexivity. Qed.

Lemma iterate_app (a b : nat) :
  forall (self : ADMM.t) (x : Tensor),
    iterate (a + b) self x = (mid <- iterate a self x ;; iterate b mid x).
Proof.
  induction a as [|a IH]; intros self x; [reflexivity|].
  cbn [Nat.add iterate].
  destruct (ADMM.forward_update self x); [|reflexivity]. cbn [bind]. apply IH.
Qed.

Lemma recovery_error_nonneg (self : ADMM.t) (x : Tensor) (e : Q) :
  ADMM.recovery_error self x = Ok e -> 0 <= e.
Proof.
  unfold ADMM.recovery_error. intros E. do 2 bind_inv E. injection E as <-.
  apply torch_sum_square_nonneg.
Qed.

(** The first operations of an update, up to the division by 2 lambda_. *)
Lemma forward_update_zero_lambda (self : ADMM.t) (x : Tensor) :
  shapes_fit self x = true ->
  Qeq_bool (2 * ADMM.lambda_ self) 0 = true ->
  ADMM.forward_update self x = Err ZeroDivisionError.
Proof.
  intros W Lam. unfold shapes_fit in W.
  rewrite !andb_true_iff, !has_shape_true, Nat.eqb_eq in W.
  destruct W as ((((((Hm & [Xr Xc]) & [Hr Hc]) & [Lr Lc]) & [Sr Sc]) & [Ur Uc]) & [Vr Vc]).
  unfold ADMM.forward_update, tadd, tsub, truediv.
  run_matmul Htx. run_broadcast d. run_broadcast right_term.
  run_matmul s'. run_broadcast su. rewrite Lam. reflexivity.
Qed.
End Forward_more.

(** X5. A solve call that returns has changed s, u and v only: step size,
    budget, tolerance, penalty, regularization weight, sensing matrix,
    cached inverse and visualization parameters are those of before; the
    estimate it returns is the s of the object; and an object that had the
    shapes the program runs with still has them. *)
Theorem forward_keeps_configuration
        {consts : utills.Constants} (self self' : ADMM.t) (x est : Tensor)
        (tr : list Q) :
  ADMM.forward self x = Ok (est, tr, self') ->
  same_config self self' /\ est = ADMM.s self' /\
  (well_shaped self x = true -> well_shaped self' x = true).
Proof.
  intros E. destruct (forward_config _ _ _ _ _ E) as [C S].
  split; [exact C|]. split; [exact S|]. intros W.
  destruct (forward_Ok self x W) as (tr2 & self2 & E2 & W2).
  rewrite E in E2. injection E2 as _ _ <-. exact W2.
Qed.

(** X6. The constructor accepts lambda_ = 0, but the first iteration of
    every solve then divides penalty by 2 lambda_: on the shapes the
    program runs with and a budget of at least one iteration, forward
    raises ZeroDivisionError. *)
Theorem forward_zero_lambda_raises
        {consts : utills.Constants} (self : ADMM.t) (x : Tensor) :
  shapes_fit self x = true ->
  2 * ADMM.lambda_ self == 0 ->
  (1 <= ADMM.max_iter self)%Z ->
  ADMM.forward self x = Err ZeroDivisionError.
Proof.
  intros W Lam Mi. unfold ADMM.forward.
  destruct (Z.to_nat (ADMM.max_iter self)) as [|k] eqn:Ek; [lia|].
  cbn [ADMM.forward_loop].
  rewrite forward_update_zero_lambda; [reflexivity | exact W |].
  apply Qeq_bool_iff. exact Lam.
Qed.

(** X7. forward looks at the observation only inside the loop.  With
    max_iter <= 0 it returns the current s, an empty trace and the object
    untouched, whatever the observation; with max_iter >= 1, an observation
    whose number of rows is not that of utills.H makes the very first
    product H^T x raise RuntimeError. *)
Theorem forward_observation_rows
        {consts : utills.Constants} (self : ADMM.t) (x : Tensor) :
  ((ADMM.max_iter self <= 0)%Z ->
   ADMM.forward self x = Ok (ADMM.s self, [], self)) /\
  ((1 <= ADMM.max_iter self)%Z -> nrows x <> nrows utills.H ->
   ADMM.forward self x = Err RuntimeError).
Proof.
  split.
  - intros Mi. unfold ADMM.forward.
    replace (Z.to_nat (ADMM.max_iter self)) with O by lia. reflexivity.
  - intros Mi N. unfold ADMM.forward.
    destruct (Z.to_nat (ADMM.max_iter self)) as [|k] eqn:Ek; [lia|].
    cbn [ADMM.forward_loop]. unfold ADMM.forward_update, matmul. shape_simpl.
    destruct (Nat.eqb_spec (nrows utills.H) (nrows x)); [congruence|].
    reflexivity.
Qed.

(** X8. Every entry of the trace a solve returns is non-negative (it is a
    sum of squares). *)
Theorem forward_trace_nonnegative
        {consts : utills.Constants} (self self' : ADMM.t) (x est : Tensor)
        (tr : list Q) :
  ADMM.forward self x = Ok (est, tr, self') ->
  Forall (fun e => 0 <= e) tr.
Proof.
  intros E. destruct (forward_sound _ _ _ _ _ E) as (K & _ & _ & _ & Ht & _).
  apply Forall_forall. intros e He.
  destruct (In_nth _ _ 0 He) as (j & Hj & <-).
  destruct (Ht j Hj) as (p & q & _ & _ & _ & Er).
  eapply recovery_error_nonneg; eassumption.
Qed.

(** X9. forward does not reset the state: a second solve of the same
    observation on the same object goes on from where the first stopped.
    If the first call ran K1 iterations and the second K2, the object
    after the second call is the one after K1 + K2 uninterrupted
    iterations from the start, and both K1 and K2 are within max_iter. *)
Theorem forward_twice_is_warm_start
        {consts : utills.Constants} (self self1 self2 : ADMM.t)
        (x est1 est2 : Tensor) (tr1 tr2 : list Q) :
  ADMM.forward self x = Ok (est1, tr1, self1) ->
  ADMM.forward self1 x = Ok (est2, tr2, self2) ->
  exists K1 K2 : nat,
    (K1 <= Z.to_nat (ADMM.max_iter self))%nat /\
    (K2 <= Z.to_nat (ADMM.max_iter self))%nat /\
    iterate K1 self x = Ok self1 /\
    iterate (K1 + K2) self x = Ok self2.
Proof.
  intros E1 E2.
  destruct (forward_sound _ _ _ _ _ E1) as (K1 & _ & B1 & I1 & _).
  destruct (forward_sound _ _ _ _ _ E2) as (K2 & _ & B2 & I2 & _).
  destruct (forward_config _ _ _ _ _ E1) as [(_ & Cmi & _) _].
  exists K1, K2. rewrite Cmi. repeat split; auto.
  - lia.
  - rewrite iterate_app, I1. exact I2.
Qed.

(** ** More of admm.py: copy, create_ADMM, loss_func *)

(** X10. copy is not a copy of the whole state.  For a solver that was
    constructed and then solved an observation, copy returns the freshly
    constructed solver with s replaced by the s of the source and
    model_params set to it: u and v of the copy are zero, whatever they are
    in the source. *)
Theorem copy_takes_s_only
        {consts : utills.Constants} (H0 : Tensor) (mu lam : Q) (mi : Z)
        (eps rho : Q) (fresh src : ADMM.t) (x est : Tensor) (tr : list Q) :
  ADMM.__init__ H0 mu lam mi eps rho = Ok fresh ->
  ADMM.forward fresh x = Ok (est, tr, src) ->
  ADMM.copy src =
  Ok (ADMM.set_model_params (ADMM.set_s fresh (ADMM.s src)) (ADMM.s src)) /\
  (forall c, ADMM.copy src = Ok c ->
     ADMM.s c = ADMM.s src /\ ADMM.u c = zeros (ncols H0) 1 /\
     ADMM.v c = zeros (ncols H0) 1 /\ ADMM.model_params c = Some (ADMM.s src) /\
     ADMM.left_term c = ADMM.left_term src).
Proof.
  intros Ei Ef. destruct (forward_config _ _ _ _ _ Ef) as [Cfg _].
  destruct Cfg as (Cmu & Cmi & Ceps & Crho & Clam & CH & Clt & _).
  assert (Ec : ADMM.copy src =
               Ok (ADMM.set_model_params (ADMM.set_s fresh (ADMM.s src)) (ADMM.s src))).
  { unfold ADMM.copy.
    rewrite <- Cmu, <- Cmi, <- Ceps, <- Crho, <- Clam, <- CH.
    destruct (init_Ok _ _ _ _ _ _ _ Ei) as (lt & ->). cbn in Ei |- *.
    rewrite Ei. reflexivity. }
  split; [exact Ec|]. intros c E. rewrite Ec in E. injection E as <-.
  destruct (init_Ok _ _ _ _ _ _ _ Ei) as (lt & ->). cbn in Clt |- *.
  repeat split; auto.
Qed.

(** X11. create_ADMM() with every default builds, when the inversion
    succeeds, the solver on utills.H with step size 0.00005, penalty 0.01,
    budget 10000, tolerance 0.001 and regularization weight 12.5; if
    utills.H has m columns, that solver solves every observation of as many
    rows as utills.H and one column, with a trace of at most 10000
    entries. *)
Theorem create_ADMM_default_solves
        {consts : utills.Constants} (self : ADMM.t) (x : Tensor) :
  ADMM.create_ADMM_default = Ok self ->
  (ADMM.H self = utills.H /\ ADMM.mu self = (5 # 100000) /\
   ADMM.rho self = (1 # 100) /\ ADMM.max_iter self = 10000%Z /\
   ADMM.eps self = (1 # 1000) /\ ADMM.lambda_ self = (25 # 2)) /\
  (ncols utills.H = utills.m -> has_shape x (nrows utills.H) 1 = true ->
   exists est tr self',
     ADMM.forward self x = Ok (est, tr, self') /\
     (Z.of_nat (length tr) <= 10000)%Z).
Proof.
  unfold ADMM.create_ADMM_default, ADMM.create_ADMM. intros E.
  split.
  - destruct (init_Ok _ _ _ _ _ _ _ E) as (lt & ->). cbn. repeat split.
  - intros Hm Hx.
    destruct (init_well_shaped admm.step_size admm.lambda_ admm.max_iter
                admm.eps_threshold admm.rho self x Hm Hx eq_refl E) as [W _].
    destruct (forward_Ok self x W) as (tr & self' & Ef & _).
    exists (ADMM.s self'), tr, self'. split; [exact Ef|].
    destruct (forward_sound _ _ _ _ _ Ef) as (K & _ & HK & _ & _ & Hs).
    destruct (init_Ok _ _ _ _ _ _ _ E) as (lt & ->). cbn in HK, Hs.
    unfold admm.max_iter in *.
    destruct Hs as [[? ?]|[? ?]]; lia.
Qed.

(** X12. Whenever loss_func returns and the penalty weight is not
    negative, the loss is not negative, and the object is the one passed
    in. *)
Theorem loss_func_nonnegative (self self' : ADMM.t) (s x_sig : Tensor) (val : Q) :
  0 <= ADMM.rho self ->
  ADMM.loss_func self s x_sig = Ok (val, self') ->
  0 <= val /\ self' = self.
Proof.
  intros R E. unfold ADMM.loss_func in E. do 2 bind_inv E.
  injection E as <- <-. split; [|reflexivity].
  pose proof (torch_sum_square_nonneg r0). pose proof (norm1_nonneg s).
  nra.
Qed.

(** ** More of utills.py: what BIM returns *)

Section BIM_more.
Context {M : Type} {module : utills.nnModule M} {autograd : utills.Autograd M}.
Variables (x s_gt : Tensor) (eps alpha : Q).

(** One inner step that succeeds, from a point of the shape of [x]:
    the shapes it keeps and the point it ends on. *)
Lemma BIM_step_entries (n : nat) (model : M) (adv_x : Tensor)
      (delta : option Tensor) (out : Tensor * option Tensor * M) :
  same_shape adv_x x ->
  utills.BIM_loop (S n) model x s_gt eps alpha adv_x delta = Ok out ->
  exists model' g a2,
    same_shape g x /\ same_shape a2 x /\
    (forall i j, (i < nrows x)%nat -> (j < ncols x)%nat ->
       item a2 i j =
       item x i j
       + Qclamp (- eps) eps
           (item adv_x i j + alpha * Qsign (item g i j) - item x i j)) /\
    utills.BIM_loop n model' x s_gt eps alpha a2
                    (Some (scale alpha (torch_sign g))) = Ok out.
Proof.
  intros [Sr Sc] E. apply BIM_loop_S in E.
  destruct E as (s_hat & errs & model1 & cost & g & a1 & d & a2 &
                 Ec & El & Eg & E1 & Ed & E2 & E).
  pose proof (utills.grad_shape _ _ _ _ Eg) as [Gr Gc].
  unfold tadd, tsub in E1, Ed, E2.
  destruct (broadcast2_same Qplus adv_x (scale alpha (torch_sign g)))
    as (a1' & E1' & [R1 C1] & I1); [split; shape_simpl; congruence|].
  rewrite E1 in E1'. injection E1' as <-.
  destruct (broadcast2_same Qminus a1 x) as (d' & Ed' & [Rd Cd] & Id);
    [split; congruence|].
  rewrite Ed in Ed'. injection Ed' as <-.
  destruct (broadcast2_same Qplus x (torch_clamp d (- eps) eps))
    as (a2' & E2' & [R2 C2] & I2); [split; shape_simpl; congruence|].
  rewrite E2 in E2'. injection E2' as <-.
  exists (utills.zero_grad model1), g, a2.
  split; [split; congruence|]. split; [split; assumption|].
  split; [|exact E].
  intros i j Hi Hj. rewrite I2 by assumption. shape_simpl.
  rewrite Id, I1 by congruence. reflexivity.
Qed.

(** The last inner step of a run of at least one step: it started from
    some point [prev] of the shape of [x] (the starting point itself when
    the run has one step), took the gradient [g] there, and ended on
    x + clamp(prev + alpha sign(g) - x). *)
Lemma BIM_loop_last (n : nat) :
  forall (model : M) (adv_x : Tensor) (delta : option Tensor) adv delta' model',
    same_shape adv_x x ->
    utills.BIM_loop (S n) model x s_gt eps alpha adv_x delta
    = Ok (adv, delta', model') ->
    exists prev g,
      same_shape prev x /\ same_shape g x /\ same_shape adv x /\
      (n = O -> prev = adv_x) /\
      delta' = Some (scale alpha (torch_sign g)) /\
      forall i j, (i < nrows x)%nat -> (j < ncols x)%nat ->
        item adv i j =
        item x i j
        + Qclamp (- eps) eps
            (item prev i j + alpha * Qsign (item g i j) - item x i j).
Proof.
  induction n as [|n IH]; intros model adv_x delta adv delta' model' S E;
    apply (BIM_step_entries _ _ _ _ _ S) in E;
    destruct E as (model1 & g & a2 & Sg & S2 & I & E).
  - cbn in E. injection E as <- <- <-.
    exists adv_x, g. repeat split; try apply S; try apply Sg; try apply S2; auto.
  - apply IH in E; [|exact S2].
    destruct E as (prev & g' & Sp & Sg' & Sa & _ & Ed' & I').
    exists prev, g'.
    repeat split; try apply Sp; try apply Sg'; try apply Sa; auto.
    discriminate.
Qed.
End BIM_more.

(** ** The projection of BIM, over the rationals and in float32 *)

Lemma SFcompare_antisym (a b : spec_float) :
  SFcompare b a = option_map CompOpp (SFcompare a b).
Proof.
  destruct a as [sa|sa| |sa ma ea], b as [sb|sb| |sb mb eb]; cbn;
    try reflexivity; try (destruct sa; reflexivity);
    try (destruct sb; reflexivity);
    try (destruct sa, sb; reflexivity).
  destruct sa, sb; cbn; try reflexivity;
    rewrite (Z.compare_antisym ea eb); destruct (ea ?= eb)%Z; cbn;
    try reflexivity.
  - do 2 f_equal. symmetry. exact (Pos.compare_cont_antisym ma mb Eq).
  - f_equal. symmetry. exact (Pos.compare_cont_antisym ma mb Eq).
Qed.

Lemma SFcompare_refl (a : spec_float) :
  a <> S754_nan -> SFcompare a a = Some Eq.
Proof.
  destruct a as [s|s| |s m e]; cbn; intros N; try reflexivity;
    try (destruct s; reflexivity); [congruence|].
  destruct s; rewrite Z.compare_refl, Pos.compare_cont_refl; reflexivity.
Qed.

Lemma SFleb_not_nan (a b : spec_float) :
  SFleb a b = true -> a <> S754_nan /\ b <> S754_nan.
Proof.
  unfold SFleb. destruct a, b; cbn; intros E; split; congruence.
Qed.

Lemma SFltb_false_leb (a b : spec_float) :
  a <> S754_nan -> b <> S754_nan -> SFltb a b = false -> SFleb b a = true.
Proof.
  intros Na Nb. unfold SFltb, SFleb. rewrite (SFcompare_antisym a b).
  destruct (SFcompare a b) as [[| |]|] eqn:E; cbn; try congruence.
  destruct a, b; cbn in E; congruence.
Qed.

Lemma SFleb_refl (a : spec_float) : a <> S754_nan -> SFleb a a = true.
Proof. intros N. unfold SFleb. now rewrite SFcompare_refl. Qed.

(** torch.clamp keeps a number within the bounds, in float32 as well. *)
Lemma Float32_clamp_within (x lo hi : spec_float) :
  SFleb lo hi = true -> x <> S754_nan ->
  SFleb lo (Float32.clamp x lo hi) = true /\
  SFleb (Float32.clamp x lo hi) hi = true.
Proof.
  intros L N. destruct (SFleb_not_nan _ _ L) as [Nlo Nhi].
  unfold Float32.clamp.
  assert (M : Float32.maximum x lo <> S754_nan /\
              SFleb lo (Float32.maximum x lo) = true).
  { unfold Float32.maximum. destruct x; try congruence;
      match goal with |- context [SFltb ?a lo] =>
        destruct (SFltb a lo) eqn:E end;
      (split; [assumption || congruence |]);
      try (now apply SFleb_refl); apply SFltb_false_leb; congruence. }
  destruct M as [Ny Ly]. set (y := Float32.maximum x lo) in *.
  unfold Float32.minimum. destruct y eqn:Ey; try congruence;
    match goal with |- context [SFltb hi ?a] =>
      destruct (SFltb hi a) eqn:E end;
    split; try assumption; try (now apply SFleb_refl);
    apply SFltb_false_leb; congruence.
Qed.

Section BIM_projection.
Context {M : Type} {module : utills.nnModule M} {autograd : utills.Autograd M}.
Variables (x s_gt : Tensor) (eps alpha : Q).

(** A run of at least one step ends on x + clamp(d, -eps, eps) for the
    accumulated perturbation [d]. *)
Lemma BIM_loop_ends_projected (n : nat) :
  forall (model : M) (adv_x : Tensor) (delta : option Tensor) adv delta' model',
    same_shape adv_x x ->
    utills.BIM_loop (S n) model x s_gt eps alpha adv_x delta
    = Ok (adv, delta', model') ->
    exists d, same_shape d x /\
              tadd x (torch_clamp d (- eps) eps) = Ok adv.
Proof.
  induction n as [|n IH]; intros model adv_x delta adv delta' model' S E.
  - apply BIM_loop_S in E.
    destruct E as (s_hat & errs & model1 & cost & g & a1 & d & a2 &
                   _ & _ & Eg & E1 & Ed & E2 & E).
    cbn in E. injection E as <- _ _. exists d. split; [|exact E2].
    pose proof (utills.grad_shape _ _ _ _ Eg) as [Gr Gc]. destruct S as [Sr Sc].
    unfold tadd, tsub in E1, Ed.
    apply broadcast2_shape in E1; [|split; shape_simpl; congruence].
    destruct E1 as [R1 C1].
    apply broadcast2_shape in Ed; [|split; congruence].
    destruct Ed as [Rd Cd]. split; congruence.
  - pose proof E as E'. apply (BIM_step_entries _ _ _ _ _ _ _ _ _ S) in E'.
    destruct E' as (model1 & g & a2 & _ & S2 & _ & E').
    eapply IH; eassumption.
Qed.
End BIM_projection.

(** C4 (amended). Whenever the attack returns and eps >= 0, the
    adversarial observation it returns is original_x + eta, where eta is
    the accumulated perturbation clamped into [-eps, eps] component by
    component: the perturbation that is added back respects the budget,
    and over exact numbers so does adv - original.  In float32 the same
    lines clamp eta into [-eps, eps] for eps as a float32 (a NaN
    perturbation staying NaN) and return the rounded sum
    original_x + eta. *)
Theorem BIM_clamps_the_perturbation
        {M : Type} {module : utills.nnModule M} {autograd : utills.Autograd M}
        (model : M) (x s_gt : Tensor) (eps alpha : Q) (steps : Z)
        (adv delta : Tensor) (model' : M) :
  (0 <= eps ->
   utills.BIM model x s_gt eps alpha steps = Ok (adv, delta, model') ->
   exists eta,
     same_shape eta x /\ tadd x eta = Ok adv /\
     forall i j, (i < nrows x)%nat -> (j < ncols x)%nat ->
       - eps <= item eta i j <= eps /\
       item adv i j = item x i j + item eta i j) /\
  (forall original_x adv_x delta32 eps32 : spec_float,
     SFleb (SFopp eps32) eps32 = true ->
     let eta := fst (Float32.BIM_project original_x adv_x delta32 eps32) in
     let adv32 := snd (Float32.BIM_project original_x adv_x delta32 eps32) in
     adv32 = Float32.add original_x eta /\
     (eta = S754_nan \/
      (SFleb (SFopp eps32) eta = true /\ SFleb eta eps32 = true))).
Proof.
  split.
  - intros He E. apply BIM_Ok in E. destruct E as [Hs E].
    destruct (Z.to_nat steps) as [|n] eqn:En; [lia|].
    apply BIM_loop_ends_projected in E; [|apply same_shape_refl].
    destruct E as (d & [Rd Cd] & E).
    exists (torch_clamp d (- eps) eps).
    split; [split; assumption|]. split; [exact E|].
    unfold tadd in E.
    destruct (broadcast2_same Qplus x (torch_clamp d (- eps) eps))
      as (a & Ea & _ & Ia); [split; shape_simpl; congruence|].
    rewrite E in Ea. injection Ea as <-.
    intros i j Hi Hj. split; [|apply Ia; assumption].
    shape_simpl. apply Qclamp_bounds. lra.
  - intros original_x adv_x delta32 eps32 L. cbn. split; [reflexivity|].
    set (d := Float32.sub (Float32.add adv_x delta32) original_x).
    destruct d eqn:Ed.
    1,2,4: right; apply Float32_clamp_within; [exact L | congruence].
    left. reflexivity.
Qed.



(** X14. With a negative eps the clamp bounds are crossed and torch.clamp
    returns its max everywhere: whenever BIM returns, every component of
    the adversarial observation is the original one plus eps. *)
Theorem BIM_negative_eps_shifts_by_eps
        {M : Type} {module : utills.nnModule M} {autograd : utills.Autograd M}
        (model : M) (x s_gt : Tensor) (eps alpha : Q) (steps : Z)
        (adv delta : Tensor) (model' : M) :
  eps < 0 ->
  utills.BIM model x s_gt eps alpha steps = Ok (adv, delta, model') ->
  same_shape adv x /\
  forall i j, (i < nrows x)%nat -> (j < ncols x)%nat ->
    item adv i j == item x i j + eps.
Proof.
  intros He E. apply BIM_Ok in E. destruct E as [Hs E].
  destruct (Z.to_nat steps) as [|n] eqn:En; [lia|].
  apply BIM_loop_last in E; [|apply same_shape_refl].
  destruct E as (prev & g & _ & _ & Sa & _ & _ & I).
  split; [exact Sa|]. intros i j Hi Hj. rewrite (I i j Hi Hj).
  rewrite Qclamp_crossed by lra. reflexivity.
Qed.

(** X15. A single inner step with 0 <= alpha <= eps is not clipped: the
    adversarial observation BIM returns is the original one plus the
    returned delta, entry by entry. *)
Theorem BIM_single_step_unclipped
        {M : Type} {module : utills.nnModule M} {autograd : utills.Autograd M}
        (model : M) (x s_gt : Tensor) (eps alpha : Q)
        (adv delta : Tensor) (model' : M) :
  0 <= alpha -> alpha <= eps ->
  utills.BIM model x s_gt eps alpha 1 = Ok (adv, delta, model') ->
  forall i j, (i < nrows x)%nat -> (j < ncols x)%nat ->
    item adv i j == item x i j + item delta i j.
Proof.
  intros A B E. apply BIM_Ok in E. destruct E as [_ E].
  change (Z.to_nat 1) with 1%nat in E.
  apply BIM_loop_last in E; [|apply same_shape_refl].
  destruct E as (prev & g & _ & _ & _ & Ep & Ed & I).
  rewrite (Ep eq_refl) in I. injection Ed as ->.
  intros i j Hi Hj. rewrite (I i j Hi Hj). shape_simpl.
  set (c := alpha * Qsign (item g i j)).
  assert (Hc : - eps <= c /\ c <= eps).
  { unfold c. destruct (Qsign_cases (item g i j)) as [[_ S]|[[_ S]|[_ S]]];
      rewrite S; split; lra. }
  rewrite Qclamp_inside by lra. lra.
Qed.

Lemma BIM_loop_config
      {consts : utills.Constants} {autograd : utills.Autograd ADMM.t}
      (x s_gt : Tensor) (eps alpha : Q) (n : nat) :
  forall (model : ADMM.t) (adv_x : Tensor) (delta : option Tensor)
         adv delta' model',
    utills.BIM_loop n model x s_gt eps alpha adv_x delta
    = Ok (adv, delta', model') ->
    same_config model model'.
Proof.
  induction n as [|n IH]; intros model adv_x delta adv delta' model' E.
  - cbn in E. injection E as _ _ <-. apply same_config_refl.
  - apply BIM_loop_S in E.
    destruct E as (s_hat & errs & model1 & cost & g & a1 & dd & a2 &
                   Ec & _ & _ & _ & _ & _ & E).
    cbn in Ec. apply forward_config in Ec. destruct Ec as [C _].
    apply IH in E. cbn in E. eapply same_config_trans; eassumption.
Qed.

(** X16. The attack advances the solver it is given but never reconfigures
    it: the ADMM object BIM hands back has the step size, budget,
    tolerance, penalty, regularization weight, sensing matrix and cached
    inverse of the one passed in. *)
Theorem BIM_keeps_solver_configuration
        {consts : utills.Constants} {autograd : utills.Autograd ADMM.t}
        (self : ADMM.t) (x s_gt : Tensor) (eps alpha : Q) (steps : Z)
        (adv delta : Tensor) (self' : ADMM.t) :
  utills.BIM self x s_gt eps alpha steps = Ok (adv, delta, self') ->
  same_config self self'.
Proof.
  intros E. apply BIM_Ok in E. destruct E as [_ E].
  eapply BIM_loop_config; eassumption.
Qed.

(** ** More of admm.py: the visualization snapshot, and solving after an attack *)

Section Snapshot.
Context {consts : utills.Constants}.

Lemma forward_update_model_params (self : ADMM.t) (p : option Tensor) (x : Tensor) :
  ADMM.forward_update (with_model_params self p) x =
  (r <- ADMM.forward_update self x ;; Ok (with_model_params r p)).
Proof.
  unfold ADMM.forward_update, with_model_params. shape_simpl.
  repeat match goal with
         | |- context [bind ?c _] =>
             destruct c; cbn [bind]; shape_simpl; try reflexivity
         end.
Qed.

Lemma forward_loop_model_params (k : nat) :
  forall (self : ADMM.t) (p : option Tensor) (x : Tensor) (tr : list Q),
    ADMM.forward_loop k (with_model_params self p) x tr =
    (r <- ADMM.forward_loop k self x tr ;;
     Ok (with_model_params (fst r) p, snd r)).
Proof.
  induction k as [|k IH]; intros self p x tr; [reflexivity|].
  cbn [ADMM.forward_loop]. rewrite forward_update_model_params.
  destruct (ADMM.forward_update self x) as [self1|]; [|reflexivity].
  cbn [bind]. unfold ADMM.converged, ADMM.recovery_error.
  cbn [with_model_params ADMM.s ADMM.eps ADMM.H].
  destruct (tsub (ADMM.s self1) (ADMM.s self)); [|reflexivity]. cbn [bind].
  destruct (Qle_bool _ _); [reflexivity|].
  destruct (matmul _ _); [|reflexivity]. cbn [bind].
  destruct (tsub _ x); [|reflexivity]. cbn [bind]. apply IH.
Qed.

Lemma BIM_loop_well_shaped {autograd : utills.Autograd ADMM.t}
      (x s_gt : Tensor) (eps alpha : Q) (n : nat) :
  forall (model : ADMM.t) (adv_x : Tensor) (delta : option Tensor)
         adv delta' model',
    well_shaped model x = true -> same_shape adv_x x ->
    utills.BIM_loop n model x s_gt eps alpha adv_x delta
    = Ok (adv, delta', model') ->
    well_shaped model' x = true /\ same_shape adv x.
Proof.
  induction n as [|n IH]; intros model adv_x delta adv delta' model' W S E.
  - cbn in E. injection E as <- _ <-. auto.
  - apply BIM_loop_S in E.
    destruct E as (s_hat & errs & model1 & cost & g & a1 & d & a2 &
                   Ec & _ & Eg & E1 & Ed & E2 & E).
    cbn in Ec.
    destruct (forward_Ok model adv_x (well_shaped_same_shape _ _ _ S W))
      as (tr & m2 & Ef & W2).
    rewrite Ec in Ef. injection Ef as _ _ ->.
    apply (well_shaped_same_shape _ _ _ (same_shape_sym _ _ S)) in W2.
    assert (S2 : same_shape a2 x).
    { pose proof (utills.grad_shape _ _ _ _ Eg) as [Gr Gc]. destruct S as [Sr Sc].
      unfold tadd, tsub in E1, Ed, E2.
      apply broadcast2_shape in E1; [|split; shape_simpl; congruence].
      destruct E1 as [R1 C1].
      apply broadcast2_shape in Ed; [|split; congruence].
      destruct Ed as [Rd Cd].
      apply broadcast2_shape in E2; [|split; shape_simpl; congruence].
      exact E2. }
    cbn in E. eapply IH; eassumption.
Qed.
End Snapshot.

(** X17. Taking the visualization snapshot does not influence a later
    solve: after set_model_visualization_params, forward fails or returns
    exactly as without it, with the same estimate and trace; model_params
    is left as it was set, that is, it still holds the s of before the
    solve. *)
Theorem snapshot_does_not_influence_forward
        {consts : utills.Constants} (self : ADMM.t) (x : Tensor) :
  ADMM.forward (ADMM.set_model_visualization_params self) x =
  (r <- ADMM.forward self x ;;
   Ok (fst (fst r), snd (fst r),
       with_model_params (snd r) (Some (ADMM.s self)))).
Proof.
  unfold ADMM.forward, ADMM.set_model_visualization_params.
  change (ADMM.set_model_params self (ADMM.s self))
    with (with_model_params self (Some (ADMM.s self))).
  cbn [with_model_params ADMM.max_iter].
  rewrite forward_loop_model_params.
  destruct (ADMM.forward_loop _ self x []) as [[self' tr]|]; reflexivity.
Qed.

(** X18. What the driver does after an attack works: when BIM returns on a
    solver with the shapes the program runs with, the adversarial
    observation has the shape of the original one, the solver handed back
    still has those shapes, and solving the adversarial observation on it
    returns. *)
Theorem forward_after_BIM_returns
        {consts : utills.Constants} {autograd : utills.Autograd ADMM.t}
        (self : ADMM.t) (x s_gt : Tensor) (eps alpha : Q) (steps : Z)
        (adv delta : Tensor) (self' : ADMM.t) :
  well_shaped self x = true ->
  utills.BIM self x s_gt eps alpha steps = Ok (adv, delta, self') ->
  same_shape adv x /\ well_shaped self' adv = true /\
  exists est tr self'', ADMM.forward self' adv = Ok (est, tr, self'').
Proof.
  intros W E. apply BIM_Ok in E. destruct E as [_ E].
  apply BIM_loop_well_shaped in E; [|exact W|apply same_shape_refl].
  destruct E as [W' S]. split; [exact S|].
  apply (well_shaped_same_shape _ _ _ S) in W'. split; [exact W'|].
  destruct (forward_Ok self' adv W') as (tr & self'' & Ef & _). eauto.
Qed.
(** From here on the one-dimensional world of [Ex] is the one in force. *)
#[local] Existing Instance Ex.consts.
#[local] Existing Instance Ex.autograd.

(** C1. The update of admm.py forms right_term with the module-level
    [utills.H], not with the solver's own sensing matrix.  In a program
    whose utills.H is [[1]], for the solver
    ADMM(H=[[2]], mu=1, lambda_=1/2, max_iter=1, eps=0, rho=1) and the
    observation [[1]], the code computes s = 1/5 where the described
    update, which uses the solver's H, computes s = 2/5. *)
Theorem forward_update_uses_module_H :
  exists self code spec,
    Ex.other_H = Ok self /\
    ADMM.forward_update (consts := Ex.consts) self (of_rows [[1]]) = Ok code /\
    spec_update self (of_rows [[1]]) = Ok spec /\
    to_rows (ADMM.s code) = [[1 # 5]] /\
    to_rows (ADMM.s spec) = [[2 # 5]].
Proof.
  do 3 eexists.
  split; [vm_compute; reflexivity|].
  split; [vm_compute; reflexivity|].
  split; [vm_compute; reflexivity|].
  split; vm_compute; reflexivity.
Qed.

(** ** Instances of the theorems *)

Lemma BIM_clamps_the_perturbation_witness :
  (exists adv delta model' eta,
     utills.BIM Ex.fresh Ex.x Ex.s_gt (1 # 10) (1 # 2) 2 = Ok (adv, delta, model') /\
     same_shape eta Ex.x /\ tadd Ex.x eta = Ok adv /\
     forall i j, (i < nrows Ex.x)%nat -> (j < ncols Ex.x)%nat ->
       - (1 # 10) <= item eta i j <= 1 # 10 /\
       item adv i j = item Ex.x i j + item eta i j) /\
  (let eta := fst (Float32.BIM_project Ex.two32 Ex.two32 Ex.alpha32 Ex.eps32) in
   let adv32 := snd (Float32.BIM_project Ex.two32 Ex.two32 Ex.alpha32 Ex.eps32) in
   adv32 = Float32.add Ex.two32 eta /\
   (eta = S754_nan \/
    (SFleb (SFopp Ex.eps32) eta = true /\ SFleb eta Ex.eps32 = true))).
Proof.
  assert (E : exists adv delta model',
             utills.BIM Ex.fresh Ex.x Ex.s_gt (1 # 10) (1 # 2) 2
             = Ok (adv, delta, model'))
    by (do 3 eexists; vm_compute; reflexivity).
  destruct E as (adv & delta & model' & E).
  destruct (BIM_clamps_the_perturbation
              (module := @ADMM.ADMM_nnModule Ex.consts) (autograd := Ex.autograd)
              Ex.fresh Ex.x Ex.s_gt (1 # 10) (1 # 2) 2 adv delta model')
    as [A B].
  split.
  - destruct (A ltac:(discriminate) E) as (eta & H).
    exists adv, delta, model', eta. split; [exact E | exact H].
  - apply (B Ex.two32 Ex.two32 Ex.alpha32 Ex.eps32). reflexivity.
Defined.

Lemma BIM_eps_zero_returns_original_witness :
  exists adv delta model',
    utills.BIM Ex.fresh Ex.x Ex.s_gt 0 (1 # 100) 1 = Ok (adv, delta, model') /\
    (1 <= 1)%Z /\ tensor_eq adv Ex.x.
Proof.
  do 3 eexists. split; [vm_compute; reflexivity|].
  eapply (BIM_eps_zero_returns_original
           (module := @ADMM.ADMM_nnModule Ex.consts) (autograd := Ex.autograd)
           Ex.fresh Ex.x Ex.s_gt 0 (1 # 100) 1).
  - reflexivity.
  - vm_compute; reflexivity.
Defined.

Lemma BIM_gradient_failure_surfaces_witness :
  utills.BIM Ex.idle Ex.x Ex.s_gt (1 # 10) (1 # 100) 5 = Err RuntimeError.
Proof.
  eapply (BIM_gradient_failure_surfaces
            (module := @ADMM.ADMM_nnModule Ex.consts) (autograd := Ex.autograd)
            Ex.idle Ex.x Ex.s_gt (1 # 10) (1 # 100) 5 0 Ex.x None Ex.idle).
  - vm_compute. lia.
  - reflexivity.
  - vm_compute; reflexivity.
  - vm_compute; reflexivity.
  - reflexivity.
Defined.

Lemma forward_stops_at_convergence_witness :
  exists (tr : list Q) (self' : ADMM.t),
    ADMM.forward Ex.tolerant Ex.x = Ok (ADMM.s self', tr, self') /\
    map Qred tr = [1] /\
    iterate (consts := Ex.consts) 2 Ex.tolerant Ex.x = Ok self' /\
    trace_is_residuals (consts := Ex.consts) Ex.tolerant Ex.x tr /\
    converged_at (consts := Ex.consts) Ex.tolerant Ex.x 2 self'.
Proof.
  destruct (forward_stops_at_convergence (consts := Ex.consts)
              Ex.tolerant Ex.x eq_refl)
    as (K & tr & self' & E & HK & Ei & Ht & Hs).
  assert (Etr : map Qred tr = [1]).
  { pose proof E as E2. vm_compute in E2. injection E2 as _ <- _. reflexivity. }
  assert (L : length tr = 1%nat)
    by (rewrite <- (length_map Qred), Etr; reflexivity).
  exists tr, self'. split; [exact E|]. split; [exact Etr|].
  destruct Hs as [[L1 L2]|[L1 C]].
  - exfalso. rewrite L in L1. subst K. discriminate L2.
  - rewrite L in L1. subst K. auto.
Defined.

Lemma forward_terminates_within_max_iter_witness :
  exists est tr self' K,
    ADMM.forward Ex.fresh Ex.x = Ok (est, tr, self') /\
    iterate (consts := Ex.consts) K Ex.fresh Ex.x = Ok self' /\
    (length tr <= K <= Z.to_nat (ADMM.max_iter Ex.fresh))%nat /\
    ((0 <= ADMM.max_iter Ex.fresh)%Z ->
     (Z.of_nat (length tr) <= ADMM.max_iter Ex.fresh)%Z).
Proof.
  destruct (forward_terminates_within_max_iter (consts := Ex.consts) Ex.fresh Ex.x)
    as [R B].
  destruct (R eq_refl) as (est & tr & self' & E).
  destruct (B est tr self' E) as (K & HK).
  exists est, tr, self', K. split; [exact E | exact HK].
Defined.

Lemma loss_func_value_witness :
  exists val,
    ADMM.loss_func Ex.fresh (of_rows [[1]]) Ex.x = Ok (val, Ex.fresh) /\
    val == spec_loss Ex.fresh (of_rows [[1]]) Ex.x.
Proof.
  apply (loss_func_value Ex.fresh (of_rows [[1]]) Ex.x); reflexivity.
Defined.


Lemma BIM_returns_only_for_positive_steps_witness :
  (utills.BIM Ex.fresh Ex.x Ex.s_gt (1 # 10) (1 # 100) 0 = Err UnboundLocalError) /\
  exists adv delta self',
    utills.BIM Ex.fresh Ex.x Ex.s_gt (1 # 10) (1 # 100) 5 = Ok (adv, delta, self').
Proof.
  assert (G : forall model adv_x s,
             (1 <= ADMM.max_iter model)%Z ->
             is_ok (utills.grad (Autograd := Ex.autograd) model adv_x s) = true).
  { intros model adv_x s Hm. cbn. unfold Ex.grad.
    destruct (Z.ltb_spec 0 (ADMM.max_iter model)); [reflexivity | lia]. }
  split.
  - apply (BIM_returns_only_for_positive_steps
             (consts := Ex.consts) (autograd := Ex.autograd)
             Ex.fresh Ex.x Ex.s_gt (1 # 10) (1 # 100) 0);
      [reflexivity | reflexivity | discriminate | exact G | discriminate].
  - apply (BIM_returns_only_for_positive_steps
             (consts := Ex.consts) (autograd := Ex.autograd)
             Ex.fresh Ex.x Ex.s_gt (1 # 10) (1 # 100) 5);
      [reflexivity | reflexivity | discriminate | exact G | discriminate].
Defined.

(** ** Where the description and the code part *)


(** Against C4 as stated.  In float32, with the original component 2.0,
    eps = 0.005 and one step of alpha = 0.01 along a positive gradient:
    the step 0.01 is clamped to eps (as a float32), but adding it back to
    2.0 rounds to 2.005000114..., so that adv - original = 20972 * 2^-22
    exceeds eps, as a float32 and as the number 0.005. *)
Lemma float32_sum_exceeds_eps :
  Qabs (inject_Z 5764607523034235 * Float32.pow2 (-60) - (5 # 1000))
  < Float32.pow2 (-61) /\
  let eta := fst (Float32.BIM_project Ex.two32 Ex.two32 Ex.alpha32 Ex.eps32) in
  let adv := snd (Float32.BIM_project Ex.two32 Ex.two32 Ex.alpha32 Ex.eps32) in
  eta = Ex.eps32 /\
  Float32.to_Q adv - Float32.to_Q Ex.two32 == inject_Z 20972 * Float32.pow2 (-22) /\
  Float32.to_Q Ex.eps32 < Float32.to_Q adv - Float32.to_Q Ex.two32 /\
  5 # 1000 < Float32.to_Q adv - Float32.to_Q Ex.two32.
Proof.
  split; [vm_compute; reflexivity|]. cbv zeta.
  split; [vm_compute; reflexivity|].
  split; [vm_compute; reflexivity|].
  split; vm_compute; reflexivity.
Qed.

(** Against C3 as stated.  ADMM(H=[[1]], mu=0, lambda_=0, max_iter=0, eps=0, rho=0) is
    constructed: no error is raised, the inversion ran (left_term is
    [[1]]) and the five non-positive values are stored. *)
Lemma init_accepts_non_positive :
  (self <- Ex.non_positive ;;
   Ok (ADMM.mu self, ADMM.lambda_ self, ADMM.max_iter self, ADMM.eps self,
       ADMM.rho self, to_rows (ADMM.left_term self)))
  = Ok (0, 0, 0%Z, 0, 0, [[1]]).
Proof. vm_compute. reflexivity. Qed.

(** ** Instances of the further properties *)

Lemma shrinkage_thresholds_witness :
  exists t,
    ADMM.shrinkage (consts := Ex.consts) (of_rows [[2]]) 1 = Ok t /\
    has_shape t 1 1 = true /\
    forall i, (i < 1)%nat ->
      (Qabs (item (of_rows [[2]]) i O) <= 1 -> item t i O == 0) /\
      (1 < Qabs (item (of_rows [[2]]) i O) ->
       item t i O
       == Qsign (item (of_rows [[2]]) i O) * (Qabs (item (of_rows [[2]]) i O) - 1)).
Proof.
  apply (shrinkage_thresholds (consts := Ex.consts) (of_rows [[2]]) 1).
  reflexivity.
Defined.

Lemma shrinkage_never_grows_witness :
  exists t,
    ADMM.shrinkage (consts := Ex.consts) (of_rows [[2]]) 1 = Ok t /\
    forall i, (i < 1)%nat ->
      Qabs (item t i O) <= Qabs (item (of_rows [[2]]) i O) /\
      0 <= item t i O * item (of_rows [[2]]) i O.
Proof.
  apply (shrinkage_never_grows (consts := Ex.consts) (of_rows [[2]]) 1);
    [reflexivity | discriminate].
Defined.

Lemma shrinkage_zero_threshold_witness :
  exists t,
    ADMM.shrinkage (consts := Ex.consts) (of_rows [[2]]) 0 = Ok t /\
    tensor_eq t (of_rows [[2]]).
Proof.
  apply (shrinkage_zero_threshold (consts := Ex.consts) (of_rows [[2]]) 0);
    reflexivity.
Defined.

Lemma shrinkage_rejects_other_dimension_witness :
  ADMM.shrinkage (consts := Ex.consts2) (of_rows [[1]; [2]; [3]]) 1
  = Err RuntimeError.
Proof.
  apply (shrinkage_rejects_other_dimension
           (consts := Ex.consts2) (of_rows [[1]; [2]; [3]]) 1);
    cbn; lia.
Defined.

Lemma forward_keeps_configuration_witness :
  exists est tr self',
    ADMM.forward Ex.fresh Ex.x = Ok (est, tr, self') /\
    same_config Ex.fresh self' /\ est = ADMM.s self' /\
    (well_shaped Ex.fresh Ex.x = true -> well_shaped self' Ex.x = true).
Proof.
  assert (E : exists est tr self',
             ADMM.forward Ex.fresh Ex.x = Ok (est, tr, self'))
    by (do 3 eexists; vm_compute; reflexivity).
  destruct E as (est & tr & self' & E). exists est, tr, self'.
  split; [exact E|].
  apply (forward_keeps_configuration (consts := Ex.consts) _ _ _ _ _ E).
Defined.

Lemma forward_zero_lambda_raises_witness :
  ADMM.forward Ex.zero_lambda Ex.x = Err ZeroDivisionError.
Proof.
  apply (forward_zero_lambda_raises (consts := Ex.consts) Ex.zero_lambda Ex.x);
    [reflexivity | reflexivity | discriminate].
Defined.

Lemma forward_observation_rows_witness :
  ADMM.forward Ex.idle (of_rows [[1]; [2]]) = Ok (ADMM.s Ex.idle, [], Ex.idle) /\
  ADMM.forward Ex.fresh (of_rows [[1]; [2]]) = Err RuntimeError.
Proof.
  split.
  - apply (forward_observation_rows (consts := Ex.consts)
             Ex.idle (of_rows [[1]; [2]])).
    discriminate.
  - apply (forward_observation_rows (consts := Ex.consts)
             Ex.fresh (of_rows [[1]; [2]])); [discriminate | cbn; lia].
Defined.

Lemma forward_trace_nonnegative_witness :
  exists est tr self',
    ADMM.forward Ex.fresh Ex.x = Ok (est, tr, self') /\
    Forall (fun e => 0 <= e) tr.
Proof.
  assert (E : exists est tr self',
             ADMM.forward Ex.fresh Ex.x = Ok (est, tr, self'))
    by (do 3 eexists; vm_compute; reflexivity).
  destruct E as (est & tr & self' & E). exists est, tr, self'.
  split; [exact E|].
  apply (forward_trace_nonnegative (consts := Ex.consts) _ _ _ _ _ E).
Defined.

Lemma forward_twice_is_warm_start_witness :
  exists est1 tr1 self1 est2 tr2 self2,
    ADMM.forward Ex.fresh Ex.x = Ok (est1, tr1, self1) /\
    ADMM.forward self1 Ex.x = Ok (est2, tr2, self2) /\
    exists K1 K2 : nat,
      (K1 <= Z.to_nat (ADMM.max_iter Ex.fresh))%nat /\
      (K2 <= Z.to_nat (ADMM.max_iter Ex.fresh))%nat /\
      iterate (consts := Ex.consts) K1 Ex.fresh Ex.x = Ok self1 /\
      iterate (consts := Ex.consts) (K1 + K2) Ex.fresh Ex.x = Ok self2.
Proof.
  assert (E : exists est1 tr1 self1 est2 tr2 self2,
             ADMM.forward Ex.fresh Ex.x = Ok (est1, tr1, self1) /\
             ADMM.forward self1 Ex.x = Ok (est2, tr2, self2)).
  { do 6 eexists. split; vm_compute; reflexivity. }
  destruct E as (est1 & tr1 & self1 & est2 & tr2 & self2 & E1 & E2).
  exists est1, tr1, self1, est2, tr2, self2.
  split; [exact E1|]. split; [exact E2|].
  apply (forward_twice_is_warm_start (consts := Ex.consts) _ _ _ _ _ _ _ _ E1 E2).
Defined.

Lemma copy_takes_s_only_witness :
  exists fresh est tr src,
    Ex.solver = Ok fresh /\
    ADMM.forward fresh Ex.x = Ok (est, tr, src) /\
    ADMM.copy src =
    Ok (ADMM.set_model_params (ADMM.set_s fresh (ADMM.s src)) (ADMM.s src)) /\
    (forall c, ADMM.copy src = Ok c ->
       ADMM.s c = ADMM.s src /\ ADMM.u c = zeros 1 1 /\
       ADMM.v c = zeros 1 1 /\ ADMM.model_params c = Some (ADMM.s src) /\
       ADMM.left_term c = ADMM.left_term src).
Proof.
  assert (E : exists fresh est tr src,
             Ex.solver = Ok fresh /\
             ADMM.forward fresh Ex.x = Ok (est, tr, src)).
  { do 4 eexists. split; vm_compute; reflexivity. }
  destruct E as (fresh & est & tr & src & E1 & E2).
  exists fresh, est, tr, src. split; [exact E1|]. split; [exact E2|].
  apply (copy_takes_s_only (consts := Ex.consts)
           (of_rows [[1]]) 1 (1 # 2) 2 0 1 fresh src Ex.x est tr E1 E2).
Defined.

Lemma create_ADMM_default_solves_witness :
  exists self,
    ADMM.create_ADMM_default (consts := Ex.consts) = Ok self /\
    (ADMM.H self = utills.H /\ ADMM.mu self = (5 # 100000) /\
     ADMM.rho self = (1 # 100) /\ ADMM.max_iter self = 10000%Z /\
     ADMM.eps self = (1 # 1000) /\ ADMM.lambda_ self = (25 # 2)) /\
    (ncols (utills.H (Constants := Ex.consts)) = utills.m ->
     has_shape Ex.x (nrows (utills.H (Constants := Ex.consts))) 1 = true ->
     exists est tr self',
       ADMM.forward self Ex.x = Ok (est, tr, self') /\
       (Z.of_nat (length tr) <= 10000)%Z).
Proof.
  assert (E : exists self, ADMM.create_ADMM_default (consts := Ex.consts) = Ok self)
    by (eexists; vm_compute; reflexivity).
  destruct E as (self & E). exists self. split; [exact E|].
  apply (create_ADMM_default_solves (consts := Ex.consts) self Ex.x E).
Defined.

Lemma loss_func_nonnegative_witness :
  exists val self',
    ADMM.loss_func Ex.fresh (of_rows [[1]]) Ex.x = Ok (val, self') /\
    0 <= val /\ self' = Ex.fresh.
Proof.
  assert (E : exists val self',
             ADMM.loss_func Ex.fresh (of_rows [[1]]) Ex.x = Ok (val, self'))
    by (do 2 eexists; vm_compute; reflexivity).
  destruct E as (val & self' & E). exists val, self'. split; [exact E|].
  apply (loss_func_nonnegative Ex.fresh self' (of_rows [[1]]) Ex.x val);
    [discriminate | exact E].
Defined.


Lemma BIM_negative_eps_shifts_by_eps_witness :
  exists adv delta model',
    utills.BIM Ex.fresh Ex.x Ex.s_gt (- (1 # 10)) (1 # 100) 1
    = Ok (adv, delta, model') /\
    same_shape adv Ex.x /\
    forall i j, (i < nrows Ex.x)%nat -> (j < ncols Ex.x)%nat ->
      item adv i j == item Ex.x i j + - (1 # 10).
Proof.
  assert (E : exists adv delta model',
             utills.BIM Ex.fresh Ex.x Ex.s_gt (- (1 # 10)) (1 # 100) 1
             = Ok (adv, delta, model'))
    by (do 3 eexists; vm_compute; reflexivity).
  destruct E as (adv & delta & model' & E). exists adv, delta, model'.
  split; [exact E|].
  apply (BIM_negative_eps_shifts_by_eps
           (module := @ADMM.ADMM_nnModule Ex.consts) (autograd := Ex.autograd)
           Ex.fresh Ex.x Ex.s_gt (- (1 # 10)) (1 # 100) 1 adv delta model');
    [reflexivity | exact E].
Defined.

Lemma BIM_single_step_unclipped_witness :
  exists adv delta model',
    utills.BIM Ex.fresh Ex.x Ex.s_gt (1 # 10) (1 # 100) 1 = Ok (adv, delta, model') /\
    forall i j, (i < nrows Ex.x)%nat -> (j < ncols Ex.x)%nat ->
      item adv i j == item Ex.x i j + item delta i j.
Proof.
  assert (E : exists adv delta model',
             utills.BIM Ex.fresh Ex.x Ex.s_gt (1 # 10) (1 # 100) 1
             = Ok (adv, delta, model'))
    by (do 3 eexists; vm_compute; reflexivity).
  destruct E as (adv & delta & model' & E). exists adv, delta, model'.
  split; [exact E|].
  apply (BIM_single_step_unclipped
           (module := @ADMM.ADMM_nnModule Ex.consts) (autograd := Ex.autograd)
           Ex.fresh Ex.x Ex.s_gt (1 # 10) (1 # 100) adv delta model');
    [discriminate | discriminate | exact E].
Defined.

Lemma BIM_keeps_solver_configuration_witness :
  exists adv delta self',
    utills.BIM Ex.fresh Ex.x Ex.s_gt (1 # 10) (1 # 100) 1 = Ok (adv, delta, self') /\
    same_config Ex.fresh self'.
Proof.
  assert (E : exists adv delta model',
             utills.BIM Ex.fresh Ex.x Ex.s_gt (1 # 10) (1 # 100) 1
             = Ok (adv, delta, model'))
    by (do 3 eexists; vm_compute; reflexivity).
  destruct E as (adv & delta & self' & E). exists adv, delta, self'.
  split; [exact E|].
  apply (BIM_keeps_solver_configuration
           (consts := Ex.consts) (autograd := Ex.autograd) _ _ _ _ _ _ _ _ _ E).
Defined.

Lemma forward_after_BIM_returns_witness :
  exists adv delta self',
    utills.BIM Ex.fresh Ex.x Ex.s_gt (1 # 10) (1 # 100) 1 = Ok (adv, delta, self') /\
    same_shape adv Ex.x /\ well_shaped self' adv = true /\
    exists est tr self'', ADMM.forward self' adv = Ok (est, tr, self'').
Proof.
  assert (E : exists adv delta model',
             utills.BIM Ex.fresh Ex.x Ex.s_gt (1 # 10) (1 # 100) 1
             = Ok (adv, delta, model'))
    by (do 3 eexists; vm_compute; reflexivity).
  destruct E as (adv & delta & self' & E). exists adv, delta, self'.
  split; [exact E|].
  apply (forward_after_BIM_returns
           (consts := Ex.consts) (autograd := Ex.autograd)
           Ex.fresh Ex.x Ex.s_gt (1 # 10) (1 # 100) 1 adv delta self' eq_refl E).
Defined.
